(** * ringbuffer: a growable byte buffer that turns into a ring at its limit

    Shallow embedding of [ringbuffer.go] (package [ringbuffer]) and the
    properties of its specification.

    - Go's [int] is modelled as [Z] with 64-bit two's complement wrap-around
      written out where the source adds or multiplies.
    - A [[]byte] is a [list byte].  Every slice the buffer owns comes from
      [make([]byte, n)], so its capacity equals its length.
    - Methods on [*RingBuffer] take the receiver and return the new receiver
      next to their Go results.  A run-time panic and a loop that never
      exits are explicit outcomes. *)

From Stdlib.Strings Require Import Byte String.
From Stdlib Require Import DecimalString.
From Stdlib Require Import ZArith List Bool Lia.
Import ListNotations.
Local Open Scope Z_scope.

(** ** Go integers *)

Module GoInt.

Definition minInt : Z := - 2 ^ 63.
Definition maxInt : Z := 2 ^ 63 - 1.

Definition is_int (z : Z) : Prop := minInt <= z <= maxInt.

(** Two's complement reduction of a mathematical integer to [int]. *)
Definition wrap (z : Z) : Z := (z + 2 ^ 63) mod 2 ^ 64 - 2 ^ 63.

Definition add (a b : Z) : Z := wrap (a + b).
Definition mul (a b : Z) : Z := wrap (a * b).

End GoInt.

(** ** Outcomes of a call *)

Inductive outcome (A : Type) : Type :=
| Ret (a : A)      (* the call returned *)
| Panic            (* run-time panic, not recovered *)
| Diverge.         (* the call never returns *)

Arguments Ret {A} a.
Arguments Panic {A}.
Arguments Diverge {A}.

Definition bind {A B : Type} (m : outcome A) (k : A -> outcome B) : outcome B :=
  match m with
  | Ret a => k a
  | Panic => Panic
  | Diverge => Diverge
  end.

Notation "x <- m ;; k" := (bind m (fun x => k))
  (at level 61, m at next level, right associativity).

(** [errors.New("can't make slice")] is the only error value of the package. *)
Inductive error : Type := ErrCantMakeSlice.

(** ** Slices *)

Module Slice.

Definition len (s : list byte) : Z := Z.of_nat (length s).

(** [s[lo:]]; panics unless [0 <= lo <= len(s)]. *)
Definition from (s : list byte) (lo : Z) : outcome (list byte) :=
  if (0 <=? lo) && (lo <=? len s) then Ret (skipn (Z.to_nat lo) s) else Panic.

(** [s[:hi]]; panics unless [0 <= hi <= cap(s)], and [cap(s) = len(s)]. *)
Definition upto (s : list byte) (hi : Z) : outcome (list byte) :=
  if (0 <=? hi) && (hi <=? len s) then Ret (firstn (Z.to_nat hi) s) else Panic.

(** The builtin [copy(dst, src)]: the new contents of [dst] and the number
    of bytes copied, the minimum of the two lengths. *)
Definition copy (dst src : list byte) : list byte * Z :=
  let n := Nat.min (length dst) (length src) in
  (firstn n src ++ skipn n dst, Z.of_nat n).

(** [copy(s[lo:], src)] seen from [s], which shares its array with
    [s[lo:]]: the new contents of [s] and the number of bytes copied. *)
Definition copy_at (s : list byte) (lo : Z) (src : list byte)
  : outcome (list byte * Z) :=
  tail <- from s lo ;;
  let '(tail', n) := copy tail src in
  Ret (firstn (Z.to_nat lo) s ++ tail', n).

(** Zero-based indexing with a default, for stating contents. *)
Definition at_ (s : list byte) (i : Z) : byte := nth (Z.to_nat i) s x00.

End Slice.

Import Slice.

(** ** The buffer *)

Definition expansionFactor : Z := 2.

Record RingBuffer : Type := mkRingBuffer {
  buf : list byte;
  pos : Z;
  written : Z;
  ringMode : bool;
  maxSize : Z
}.

Definition set_buf (r : RingBuffer) (b : list byte) : RingBuffer :=
  mkRingBuffer b (pos r) (written r) (ringMode r) (maxSize r).
Definition set_pos (r : RingBuffer) (n : Z) : RingBuffer :=
  mkRingBuffer (buf r) n (written r) (ringMode r) (maxSize r).
Definition set_written (r : RingBuffer) (n : Z) : RingBuffer :=
  mkRingBuffer (buf r) (pos r) n (ringMode r) (maxSize r).
Definition set_ringMode (r : RingBuffer) (m : bool) : RingBuffer :=
  mkRingBuffer (buf r) (pos r) (written r) m (maxSize r).

(** [Cap]: [cap(r.buf)], which is [len(r.buf)] for a slice made by [make]. *)
Definition Cap (r : RingBuffer) : Z := len (buf r).

Definition Written (r : RingBuffer) : Z := written r.

Definition Reset (r : RingBuffer) : RingBuffer :=
  let r := set_written r 0 in
  let r := set_ringMode r false in
  set_pos r 0.

Definition Close (r : RingBuffer) : RingBuffer * option error :=
  (mkRingBuffer [] 0 0 false 0, None).

(** [Bytes]; the [append] allocates whenever it has something to add, so the
    receiver is left alone. *)
Definition Bytes (r : RingBuffer) : outcome (list byte) :=
  if ringMode r then
    a <- from (buf r) (pos r) ;;
    b <- upto (buf r) (pos r) ;;
    Ret (a ++ b)
  else upto (buf r) (pos r).

(** [writeRing].  [p[pLen-bufLen:]] and [p[written:]] cannot panic: the
    first is taken when [pLen > bufLen], the second with [written <= pLen]. *)
Definition writeRing (r : RingBuffer) (p : list byte)
  : outcome (RingBuffer * Z * option error) :=
  let pLen := len p in
  let bufLen := len (buf r) in
  if pLen >? bufLen then
    src <- from p (pLen - bufLen) ;;
    let r := set_buf r (fst (copy (buf r) src)) in
    let r := set_pos r 0 in
    let r := set_written r (GoInt.add (written r) pLen) in
    Ret (r, pLen, None)
  else
    c <- copy_at (buf r) (pos r) p ;;
    let '(b, written_) := c in
    let r := set_buf r b in
    let r := set_pos r 0 in
    r <- (if pLen >? written_ then
            rest <- from p written_ ;;
            let '(b', n) := copy (buf r) rest in
            let r := set_buf r b' in
            Ret (set_pos r n)
          else Ret r) ;;
    let r := set_written r (GoInt.add (written r) pLen) in
    Ret (r, pLen, None).

(** The [for newSize < size] loop of [Grow].  With 64-bit wrap-around the
    value is [0] after 64 doublings and stays there, so fuel beyond
    [growFuel] never changes the answer (lemmas [growLoop_stable] and
    [growLoop_diverges]); [None] is a loop that does not exit. *)
Fixpoint growLoop (fuel : nat) (newSize size : Z) : option Z :=
  if newSize <? size then
    match fuel with
    | O => None
    | S fuel' => growLoop fuel' (GoInt.mul newSize expansionFactor) size
    end
  else Some newSize.

Definition growFuel : nat := 65.

Section Allocator.

(** Whether [make([]byte, n)] returns a slice instead of panicking. *)
Variable alloc_ok : Z -> bool.

(** [makeSlice]: [make] panics on a bad length and the deferred function
    turns the panic into an error. *)
Definition makeSlice (n : Z) : list byte * option error :=
  if (0 <=? n) && alloc_ok n
  then (repeat x00 (Z.to_nat n), None)
  else ([], Some ErrCantMakeSlice).

(** The size [Grow] asks [makeSlice] for. *)
Definition growSize (r : RingBuffer) (size : Z) : option Z :=
  let newSize := len (buf r) in
  let newSize := if newSize =? 0 then 1 else newSize in
  match growLoop growFuel newSize size with
  | None => None
  | Some newSize =>
      Some (if newSize >=? maxSize r then maxSize r else newSize)
  end.

Definition Grow (r : RingBuffer) (size : Z)
  : outcome (RingBuffer * option error) :=
  match growSize r size with
  | None => Diverge
  | Some newSize =>
      match makeSlice newSize with
      | (_, Some err) => Ret (r, Some err)
      | (newBuf, None) =>
          Ret (set_buf r (fst (copy newBuf (buf r))), None)
      end
  end.

Definition write (r : RingBuffer) (p : list byte)
  : outcome (RingBuffer * Z * option error) :=
  let pLen := len p in
  g <- (if len (buf r) <? GoInt.add (pos r) pLen
        then Grow r (GoInt.add (pos r) pLen)
        else Ret (r, None)) ;;
  match g with
  | (r, Some err) => Ret (r, 0, Some err)
  | (r, None) =>
      if len (buf r) >=? GoInt.add (pos r) pLen then
        c <- copy_at (buf r) (pos r) p ;;
        let '(b, n) := c in
        let r := set_buf r b in
        let r := set_written r (GoInt.add (written r) n) in
        let r := set_pos r (GoInt.add (pos r) n) in
        let r := if pos r =? maxSize r
                 then set_pos (set_ringMode r true) 0
                 else r in
        Ret (r, n, None)
      else
        writeRing (set_ringMode r true) p
  end.

Definition Write (r : RingBuffer) (p : list byte)
  : outcome (RingBuffer * Z * option error) :=
  if ringMode r then writeRing r p else write r p.

(** [NewRingBuffer]; its [make] is not guarded, so a bad length panics. *)
Definition NewRingBuffer (initialSize maxSize_ : Z) : outcome RingBuffer :=
  let initialSize := if initialSize >? maxSize_ then maxSize_ else initialSize in
  if (0 <=? initialSize) && alloc_ok initialSize
  then Ret (mkRingBuffer (repeat x00 (Z.to_nat initialSize)) 0 0 false maxSize_)
  else Panic.

(** The buffer [write] goes on with after its growth step. *)
Definition grown (r r1 : RingBuffer) (size : Z) : Prop :=
  (size <= len (buf r) /\ r1 = r) \/
  (len (buf r) < size /\ Grow r size = Ret (r1, None)).

(** *** Sequences of calls *)

Inductive op : Type :=
| OpWrite (p : list byte)
| OpGrow (size : Z)
| OpBytes
| OpReset.

(** One call; an error return is a return. *)
Definition step (r : RingBuffer) (o : op) : outcome RingBuffer :=
  match o with
  | OpWrite p => x <- Write r p ;; Ret (fst (fst x))
  | OpGrow size => x <- Grow r size ;; Ret (fst x)
  | OpBytes => _ <- Bytes r ;; Ret r
  | OpReset => Ret (Reset r)
  end.

Fixpoint run (r : RingBuffer) (ops : list op) : outcome RingBuffer :=
  match ops with
  | [] => Ret r
  | o :: ops' => r' <- step r o ;; run r' ops'
  end.

(** A sequence of writes all of which succeed: the final buffer and the
    counts returned, [None] as soon as one write does not return [nil]. *)
Fixpoint writeAll (r : RingBuffer) (ps : list (list byte))
  : option (RingBuffer * list Z) :=
  match ps with
  | [] => Some (r, [])
  | p :: ps' =>
      match Write r p with
      | Ret (r', n, None) =>
          match writeAll r' ps' with
          | Some (r'', ns) => Some (r'', n :: ns)
          | None => None
          end
      | _ => None
      end
  end.

(** Buffers a program can hold: made by [NewRingBuffer] with an [int] limit
    and then used through [Write], [Grow], [Bytes] and [Reset]. *)
Inductive reachable : RingBuffer -> Prop :=
| reach_new (i M : Z) (r : RingBuffer) :
    GoInt.is_int M -> NewRingBuffer i M = Ret r -> reachable r
| reach_step (r r' : RingBuffer) (o : op) :
    reachable r -> step r o = Ret r' -> reachable r'.

(** A buffer right after its construction or right after a [Reset]. *)
Inductive fresh : RingBuffer -> Prop :=
| fresh_new (i M : Z) (r : RingBuffer) :
    GoInt.is_int M -> NewRingBuffer i M = Ret r -> fresh r
| fresh_reset (r : RingBuffer) : reachable r -> fresh (Reset r).

End Allocator.

(** ** Notions used by the properties *)

(** [dbl k n]: the loop variable after [k] rounds. *)
Definition dbl (k : nat) (n : Z) : Z :=
  Nat.iter k (fun x => GoInt.mul x expansionFactor) n.

(** The data model: the cursor is inside the storage, the storage is within
    the limit, and a buffer in ring mode has all of its storage. *)
Definition wf (r : RingBuffer) : Prop :=
  0 <= pos r <= len (buf r) /\
  len (buf r) <= maxSize r /\
  maxSize r <= GoInt.maxInt /\
  (ringMode r = true -> len (buf r) = maxSize r).

(** The storage is within the limit. *)
Definition capped (r : RingBuffer) : Prop := len (buf r) <= maxSize r.

(** The buffer after the copy of the branch of [write] that fits. *)
Definition copied (r1 : RingBuffer) (b : list byte) (n : Z) : RingBuffer :=
  let q := mkRingBuffer b (GoInt.add (pos r1) n) (GoInt.add (written r1) n)
             (ringMode r1) (maxSize r1) in
  if pos q =? maxSize q then set_pos (set_ringMode q true) 0 else q.

(** Sum of the lengths of the inputs. *)
Definition total (ps : list (list byte)) : Z :=
  fold_right Z.add 0 (map len ps).

(** The storage length after [k] writes of one byte each into a buffer made
    by [NewRingBuffer 0 M]: the least power of two that holds [k] bytes, cut
    at the limit. *)
Definition doubled (M k : Z) : Z :=
  if k =? 0 then 0 else Z.min (2 ^ Z.log2_up k) M.

(** The buffers met while writing one byte at a time, after [k] bytes. *)
Definition bytewise (M k : Z) (r : RingBuffer) : Prop :=
  maxSize r = M /\ len (buf r) = doubled M k /\
  ((ringMode r = false /\ pos r = k /\ (k < M \/ k = 0)) \/
   (ringMode r = true /\ 0 <= pos r <= len (buf r) /\ 1 <= k /\ M <= k)).

Definition single (b : byte) : list byte := [b].

Definition always (_ : Z) : bool := true.

Definition bytes_of (s : string) : list byte := list_byte_of_string s.

Definition decimal (n : nat) : list byte :=
  bytes_of (NilZero.string_of_uint (Nat.to_uint n)).

(** ** The remaining methods and notions for their properties *)

(** [String]: [string(r.Bytes())], the bytes taken over as they are. *)
Definition String (r : RingBuffer) : outcome string :=
  b <- Bytes r ;; Ret (string_of_list_byte b).

(** The last [n] bytes of [l], all of [l] when it has fewer. *)
Definition lastn (n : Z) (l : list byte) : list byte :=
  skipn (Z.to_nat (len l - n)) l.

(** Arguments with which the sums and doublings of a call stay clear of
    the end of [int]. *)
Definition small_op (r : RingBuffer) (o : op) : Prop :=
  match o with
  | OpWrite p => maxSize r + len p <= 2 ^ 62
  | OpGrow size => size <= 2 ^ 62
  | OpBytes => True
  | OpReset => True
  end.

(** Two buffers that no method can tell apart: the same fields, and the
    same bytes wherever the contents live (all the storage in ring mode,
    the part before the cursor otherwise). *)
Definition same_view (a b : RingBuffer) : Prop :=
  pos a = pos b /\ written a = written b /\ ringMode a = ringMode b /\
  maxSize a = maxSize b /\ len (buf a) = len (buf b) /\
  (if ringMode a then buf a = buf b
   else firstn (Z.to_nat (pos a)) (buf a) = firstn (Z.to_nat (pos b)) (buf b)).

(** A buffer as [Close] leaves it, also after later writes. *)
Definition closed (r : RingBuffer) : Prop :=
  buf r = [] /\ pos r = 0 /\ maxSize r = 0.

(** * Proofs *)

(** ** Integers *)

(** Goals that say a sum or product of lengths is an [int]. *)
Ltac int_range :=
  unfold GoInt.is_int, GoInt.minInt, GoInt.maxInt in *; cbn [len length] in *;
  lia.

Lemma wrap_id (z : Z) : GoInt.is_int z -> GoInt.wrap z = z.
Proof.
  unfold GoInt.is_int, GoInt.minInt, GoInt.maxInt, GoInt.wrap. intros H.
  rewrite Z.mod_small; lia.
Qed.

Lemma add_id (a b : Z) : GoInt.is_int (a + b) -> GoInt.add a b = a + b.
Proof. apply wrap_id. Qed.

Lemma wrap_is_int (z : Z) : GoInt.is_int (GoInt.wrap z).
Proof.
  unfold GoInt.is_int, GoInt.minInt, GoInt.maxInt, GoInt.wrap.
  pose proof (Z.mod_pos_bound (z + 2 ^ 63) (2 ^ 64)). lia.
Qed.

Lemma wrap_double (z : Z) : GoInt.wrap (GoInt.wrap z * 2) = GoInt.wrap (z * 2).
Proof.
  unfold GoInt.wrap. f_equal.
  replace ((z + 2 ^ 63) mod 2 ^ 64 - 2 ^ 63) with
    ((z + 2 ^ 63) mod 2 ^ 64 + (- 2 ^ 63)) by lia.
  replace (((z + 2 ^ 63) mod 2 ^ 64 + - 2 ^ 63) * 2 + 2 ^ 63)
    with (2 * ((z + 2 ^ 63) mod 2 ^ 64) + (- 2 ^ 63)) by lia.
  replace (z * 2 + 2 ^ 63) with (2 * (z + 2 ^ 63) + (- 2 ^ 63)) by lia.
  rewrite Z.add_mod by lia. rewrite Z.mul_mod_idemp_r by lia.
  rewrite <- Z.add_mod by lia. reflexivity.
Qed.

(** ** The doubling loop and its fuel *)

Lemma growLoop_exit (f : nat) (n s v : Z) :
  growLoop f n s = Some v -> s <= v.
Proof.
  revert n. induction f as [|f IH]; intros n; simpl;
    destruct (Z.ltb_spec n s); try discriminate; eauto.
  - intros [= <-]. assumption.
  - intros [= <-]. assumption.
Qed.

(** The loop leaves its start value alone or moves past it. *)
Lemma growLoop_start (f : nat) (n s v : Z) :
  growLoop f n s = Some v -> v = n \/ (n < s /\ s <= v).
Proof.
  intros H. pose proof (growLoop_exit _ _ _ _ H) as Hex.
  destruct f; simpl in H; destruct (Z.ltb_spec n s).
  - discriminate.
  - left. congruence.
  - right. split; assumption.
  - left. congruence.
Qed.

Lemma growLoop_more (f : nat) (n s v : Z) :
  growLoop f n s = Some v -> growLoop (S f) n s = Some v.
Proof.
  revert n. induction f as [|f IH]; intros n H.
  - simpl in *. destruct (n <? s); [discriminate | assumption].
  - change (growLoop (S (S f)) n s) with
      (if n <? s then growLoop (S f) (GoInt.mul n expansionFactor) s else Some n).
    simpl in H. destruct (n <? s); [apply IH | ]; assumption.
Qed.

Lemma growLoop_mono (k f : nat) (n s v : Z) :
  growLoop f n s = Some v -> growLoop (k + f) n s = Some v.
Proof.
  intros H. induction k as [|k IH]; [assumption | ].
  change (S k + f)%nat with (S (k + f)). apply growLoop_more, IH.
Qed.

Lemma dbl_S (k : nat) (n : Z) :
  dbl (S k) n = dbl k (GoInt.mul n expansionFactor).
Proof. unfold dbl. now rewrite Nat.iter_succ_r. Qed.

Lemma dbl_wrap (k : nat) (n : Z) :
  dbl (S k) n = GoInt.wrap (n * 2 ^ Z.of_nat (S k)).
Proof.
  induction k as [|k IH].
  - unfold dbl. simpl. unfold GoInt.mul, expansionFactor. f_equal.
  - change (dbl (S (S k)) n) with (GoInt.mul (dbl (S k) n) expansionFactor).
    rewrite IH. unfold GoInt.mul, expansionFactor. rewrite wrap_double.
    f_equal. rewrite (Nat2Z.inj_succ (S k)), Z.pow_succ_r by lia. lia.
Qed.

Lemma dbl_64 (n : Z) : dbl 64 n = 0.
Proof.
  rewrite dbl_wrap. unfold GoInt.wrap.
  replace (n * 2 ^ Z.of_nat 64 + 2 ^ 63) with (2 ^ 63 + n * 2 ^ 64)
    by (change (Z.of_nat 64) with 64; lia).
  rewrite Z.mod_add by lia. rewrite Z.mod_small by lia. lia.
Qed.

Lemma growLoop_none_pre (k f : nat) (n s : Z) :
  growLoop (k + f) n s = None -> growLoop f (dbl k n) s = None.
Proof.
  revert n. induction k as [|k IH]; intros n H; [exact H | ].
  rewrite dbl_S. apply IH.
  change (S k + f)%nat with (S (k + f)) in H. simpl in H.
  destruct (n <? s); [assumption | discriminate].
Qed.

Lemma growLoop_none_post (k f f' : nat) (n s : Z) :
  growLoop (k + f) n s = None ->
  growLoop f' (dbl k n) s = None ->
  growLoop (k + f') n s = None.
Proof.
  revert n. induction k as [|k IH]; intros n H H'; [exact H' | ].
  change (S k + f)%nat with (S (k + f)) in H.
  change (S k + f')%nat with (S (k + f')).
  simpl in *. destruct (n <? s); [ | discriminate].
  apply IH; [assumption | ]. rewrite <- dbl_S. assumption.
Qed.

Lemma growLoop_zero (f f' : nat) (s : Z) :
  growLoop f 0 s = None -> growLoop f' 0 s = None.
Proof.
  intros H. assert (Hs : 0 < s).
  { destruct f; simpl in H; destruct (Z.ltb_spec 0 s); (assumption || discriminate). }
  clear H. induction f' as [|f' IH]; simpl;
    destruct (Z.ltb_spec 0 s); try lia; [reflexivity | exact IH].
Qed.

(** More fuel than [growFuel] never changes an exit value. *)
Lemma growLoop_stable (f : nat) (n s v : Z) :
  growLoop growFuel n s = Some v -> (growFuel <= f)%nat ->
  growLoop f n s = Some v.
Proof.
  intros H Hf. replace f with ((f - growFuel) + growFuel)%nat by lia.
  apply growLoop_mono, H.
Qed.

(** Running out of [growFuel] is a loop that never exits. *)
Lemma growLoop_diverges (f : nat) (n s : Z) :
  growLoop growFuel n s = None -> growLoop f n s = None.
Proof.
  intros H. change growFuel with (64 + 1)%nat in H.
  assert (H0 : forall f', growLoop f' 0 s = None).
  { intros f'. apply growLoop_zero with (f := 1%nat).
    rewrite <- (dbl_64 n). apply growLoop_none_pre, H. }
  assert (H64 : growLoop (64 + f) n s = None).
  { apply growLoop_none_post with (f := 1%nat); [exact H | ].
    rewrite dbl_64. apply H0. }
  destruct (growLoop f n s) as [v|] eqn:E; [ | reflexivity].
  apply (growLoop_mono 64) in E. congruence.
Qed.

(** Without overflow in sight the loop exits. *)
Lemma growLoop_small_aux (f : nat) (m s : Z) :
  0 < m -> s <= 2 ^ 62 -> s <= m * 2 ^ Z.of_nat f ->
  exists v, growLoop f m s = Some v.
Proof.
  revert m. induction f as [|f IH]; intros m Hm Hs Hf.
  - simpl in *. destruct (Z.ltb_spec m s); [lia | eauto].
  - simpl. destruct (Z.ltb_spec m s); [ | eauto].
    unfold GoInt.mul, expansionFactor. rewrite wrap_id.
    + apply IH; [lia | assumption | ].
      rewrite Nat2Z.inj_succ, Z.pow_succ_r in Hf by lia. lia.
    + int_range.
Qed.

Lemma growLoop_small (n s : Z) :
  0 < n -> s <= 2 ^ 62 -> exists v, growLoop growFuel n s = Some v.
Proof.
  intros Hn Hs. apply growLoop_small_aux; try assumption.
  change (2 ^ Z.of_nat growFuel) with (2 ^ 65). lia.
Qed.

(** ** Slices *)

Lemma len_nonneg (s : list byte) : 0 <= len s.
Proof. unfold len. lia. Qed.

Lemma len_app (a b : list byte) : len (a ++ b) = len a + len b.
Proof. unfold len. rewrite length_app. lia. Qed.

Lemma len_repeat (n : Z) : 0 <= n -> len (repeat x00 (Z.to_nat n)) = n.
Proof. intros H. unfold len. rewrite repeat_length. lia. Qed.

Lemma copy_len (dst src : list byte) : len (fst (copy dst src)) = len dst.
Proof.
  unfold copy, len. simpl. rewrite length_app, length_firstn, length_skipn. lia.
Qed.

Lemma copy_count (dst src : list byte) :
  snd (copy dst src) = Z.min (len dst) (len src).
Proof. unfold copy, len. simpl. lia. Qed.

Lemma from_ret (s t : list byte) (lo : Z) :
  from s lo = Ret t -> 0 <= lo <= len s /\ t = skipn (Z.to_nat lo) s.
Proof.
  unfold from. destruct (Z.leb_spec 0 lo), (Z.leb_spec lo (len s)); simpl;
    try discriminate. intros [= <-]. auto.
Qed.

Lemma from_ok (s : list byte) (lo : Z) :
  0 <= lo <= len s -> from s lo = Ret (skipn (Z.to_nat lo) s).
Proof.
  intros H. unfold from.
  destruct (Z.leb_spec 0 lo), (Z.leb_spec lo (len s)); simpl; try lia. reflexivity.
Qed.

Lemma upto_ok (s : list byte) (hi : Z) :
  0 <= hi <= len s -> upto s hi = Ret (firstn (Z.to_nat hi) s).
Proof.
  intros H. unfold upto.
  destruct (Z.leb_spec 0 hi), (Z.leb_spec hi (len s)); simpl; try lia. reflexivity.
Qed.

(** What [copy(s[lo:], src)] does to [s]. *)
Lemma copy_at_ok (s : list byte) (lo : Z) (src : list byte) :
  0 <= lo <= len s ->
  let n := Z.min (len s - lo) (len src) in
  copy_at s lo src =
    Ret (firstn (Z.to_nat lo) s ++ firstn (Z.to_nat n) src
           ++ skipn (Z.to_nat (lo + n)) s, n).
Proof.
  intros H n. unfold copy_at. rewrite from_ok by assumption. simpl.
  unfold copy. rewrite length_skipn.
  assert (Hn : Z.to_nat n = Nat.min (length s - Z.to_nat lo) (length src)).
  { subst n. unfold len in *. lia. }
  assert (H0 : 0 <= n) by (subst n; unfold len in *; lia).
  rewrite <- Hn, skipn_skipn.
  replace (Z.to_nat n + Z.to_nat lo)%nat with (Z.to_nat (lo + n)) by lia.
  rewrite Z2Nat.id by lia. reflexivity.
Qed.

Lemma copy_at_ret (s b : list byte) (lo n : Z) (src : list byte) :
  copy_at s lo src = Ret (b, n) ->
  0 <= lo <= len s /\ n = Z.min (len s - lo) (len src) /\ len b = len s /\
  b = firstn (Z.to_nat lo) s ++ firstn (Z.to_nat n) src
        ++ skipn (Z.to_nat (lo + n)) s.
Proof.
  intros H.
  assert (Hlo : 0 <= lo <= len s).
  { unfold copy_at in H. destruct (from s lo) as [t| |] eqn:E; try discriminate.
    apply from_ret in E. tauto. }
  rewrite copy_at_ok in H by assumption. injection H as <- <-.
  repeat split; try lia.
  unfold len in *. rewrite !length_app, !length_firstn, length_skipn. lia.
Qed.

Lemma skipn_repeat (x : byte) (m n : nat) :
  skipn m (repeat x n) = repeat x (n - m).
Proof.
  revert n. induction m as [|m IH]; intros [|n]; simpl; auto.
Qed.

Lemma copy_prefix (dst src : list byte) :
  len src <= len dst -> fst (copy dst src) = src ++ skipn (length src) dst.
Proof.
  unfold copy, len. intros H. simpl.
  replace (Nat.min (length dst) (length src)) with (length src) by lia.
  rewrite firstn_all. reflexivity.
Qed.

(** ** Writing in ring mode *)

(** An input longer than the storage: its tail replaces the storage. *)
Lemma writeRing_big (r : RingBuffer) (p : list byte) :
  len (buf r) < len p ->
  writeRing r p =
    Ret (mkRingBuffer (skipn (Z.to_nat (len p - len (buf r))) p) 0
           (GoInt.add (written r) (len p)) (ringMode r) (maxSize r),
         len p, None).
Proof.
  intros H. unfold writeRing.
  destruct (Z.gtb_spec (len p) (len (buf r))); [ | lia].
  pose proof (len_nonneg (buf r)).
  rewrite from_ok by lia. cbn [bind]. unfold set_written, set_pos, set_buf.
  cbn [buf pos written ringMode maxSize].
  unfold copy. cbn [fst]. rewrite length_skipn.
  replace (Nat.min _ _) with (length (buf r)) by (unfold len in *; lia).
  rewrite skipn_all, app_nil_r, firstn_all2; [reflexivity | ].
  rewrite length_skipn. unfold len in *. lia.
Qed.

(** An input that is not longer than the storage: one copy from the cursor
    to the end, and one from index 0 for what is left. *)
Lemma writeRing_small (r : RingBuffer) (p : list byte) :
  len p <= len (buf r) -> 0 <= pos r <= len (buf r) ->
  let k := Z.min (len (buf r) - pos r) (len p) in
  let b1 := firstn (Z.to_nat (pos r)) (buf r) ++ firstn (Z.to_nat k) p
              ++ skipn (Z.to_nat (pos r + k)) (buf r) in
  writeRing r p =
    Ret (mkRingBuffer
           (if len p >? k
            then skipn (Z.to_nat k) p ++ skipn (Z.to_nat (len p - k)) b1
            else b1)
           (if len p >? k then len p - k else 0)
           (GoInt.add (written r) (len p)) (ringMode r) (maxSize r),
         len p, None).
Proof.
  intros Hp Hpos k b1. unfold writeRing.
  destruct (Z.gtb_spec (len p) (len (buf r))); [lia | ].
  rewrite copy_at_ok by assumption. fold k. fold b1. cbn [bind].
  unfold set_written, set_pos, set_buf. cbn [buf pos written ringMode maxSize].
  assert (Hk : 0 <= k <= len p) by (unfold k, len in *; lia).
  assert (Hb1 : len b1 = len (buf r)).
  { unfold b1, k, len in *.
    rewrite !length_app, !length_firstn, length_skipn. lia. }
  destruct (Z.gtb_spec (len p) k); [ | reflexivity].
  rewrite from_ok by lia. cbn [bind]. unfold copy. rewrite length_skipn.
  replace (Nat.min _ _) with (Z.to_nat (len p - k)) by (unfold len in *; lia).
  cbn [buf pos written ringMode maxSize].
  rewrite firstn_all2 by (rewrite length_skipn; unfold len in *; lia).
  rewrite Z2Nat.id by lia. reflexivity.
Qed.

(** In ring mode a write returns the length of its input and no error as
    soon as the cursor is inside the storage, and it keeps the storage
    length. *)
Lemma writeRing_ok (r : RingBuffer) (p : list byte) :
  0 <= pos r <= len (buf r) ->
  exists b c,
    writeRing r p =
      Ret (mkRingBuffer b c (GoInt.add (written r) (len p)) (ringMode r)
             (maxSize r), len p, None) /\
    len b = len (buf r) /\ 0 <= c <= len b.
Proof.
  intros Hpos. pose proof (len_nonneg (buf r)) as Hl.
  destruct (Z.lt_ge_cases (len (buf r)) (len p)) as [Hbig | Hsmall].
  - rewrite writeRing_big by assumption. do 2 eexists. split; [reflexivity | ].
    unfold len in *. rewrite length_skipn. lia.
  - rewrite writeRing_small by assumption.
    set (k := Z.min (len (buf r) - pos r) (len p)).
    set (b1 := _ ++ _ ++ _).
    assert (Hb1 : len b1 = len (buf r)).
    { subst b1 k. unfold len in *.
      rewrite !length_app, !length_firstn, length_skipn. lia. }
    do 2 eexists. split; [reflexivity | ].
    destruct (Z.gtb_spec (len p) k).
    + rewrite len_app. unfold len in *. rewrite !length_skipn. lia.
    + lia.
Qed.

(** Whatever [writeRing] returns, it returns the length of its input and no
    error, and the storage keeps its length. *)
Lemma writeRing_ret (r r' : RingBuffer) (p : list byte) (n : Z)
      (e : option error) :
  writeRing r p = Ret (r', n, e) ->
  n = len p /\ e = None /\ maxSize r' = maxSize r /\
  ringMode r' = ringMode r /\ len (buf r') = len (buf r) /\
  written r' = GoInt.add (written r) (len p) /\
  0 <= pos r' <= len (buf r').
Proof.
  intros H. pose proof (len_nonneg (buf r)) as Hl.
  destruct (Z.lt_ge_cases (len (buf r)) (len p)) as [Hbig | Hsmall].
  - rewrite writeRing_big in H by assumption. injection H as <- <- <-.
    cbn [buf pos written ringMode maxSize].
    unfold len in *. rewrite length_skipn. repeat split; lia.
  - assert (Hpos : 0 <= pos r <= len (buf r)).
    { unfold writeRing in H.
      destruct (Z.gtb_spec (len p) (len (buf r))); [lia | ].
      destruct (copy_at (buf r) (pos r) p) as [[b w]| |] eqn:C;
        try discriminate.
      apply copy_at_ret in C. tauto. }
    destruct (writeRing_ok r p Hpos) as (b & c & E & Hb & Hc).
    rewrite E in H. injection H as <- <- <-.
    cbn [buf pos written ringMode maxSize]. repeat split; lia.
Qed.

(** ** Invariants of the buffer *)

Section Calls.

Variable alloc_ok : Z -> bool.

Lemma makeSlice_ok (n : Z) (b : list byte) :
  makeSlice alloc_ok n = (b, None) ->
  0 <= n /\ alloc_ok n = true /\ b = repeat x00 (Z.to_nat n).
Proof.
  unfold makeSlice. destruct (Z.leb_spec 0 n); simpl; [ | discriminate].
  destruct (alloc_ok n); [ | discriminate]. intros [= <-]. auto.
Qed.

Lemma makeSlice_err (n : Z) (b : list byte) (e : error) :
  makeSlice alloc_ok n = (b, Some e) -> (0 <=? n) && alloc_ok n = false.
Proof.
  unfold makeSlice. destruct ((0 <=? n) && alloc_ok n); [discriminate | reflexivity].
Qed.

(** [Grow] asks for the limit, or for a size below the limit that covers
    both the request and the present storage. *)
Lemma growSize_spec (r : RingBuffer) (size n : Z) :
  growSize r size = Some n ->
  n = maxSize r \/
  (n < maxSize r /\ size <= n /\ len (buf r) <= n /\ 1 <= n).
Proof.
  unfold growSize.
  destruct (growLoop growFuel _ size) as [v|] eqn:E; [ | discriminate].
  intros [= <-]. pose proof (growLoop_exit _ _ _ _ E) as Hex.
  apply growLoop_start in E. pose proof (len_nonneg (buf r)) as Hl.
  destruct (Z.geb_spec v (maxSize r)); [left; reflexivity | right].
  destruct (Z.eqb_spec (len (buf r)) 0); lia.
Qed.

Lemma growSize_small (r : RingBuffer) (size : Z) :
  size <= 2 ^ 62 -> exists n, growSize r size = Some n.
Proof.
  intros H. unfold growSize.
  destruct (growLoop_small (if len (buf r) =? 0 then 1 else len (buf r)) size)
    as [v ->]; [ | assumption | eauto].
  pose proof (len_nonneg (buf r)). destruct (Z.eqb_spec (len (buf r)) 0); lia.
Qed.

Lemma Grow_ret (r r' : RingBuffer) (size : Z) (e : option error) :
  Grow alloc_ok r size = Ret (r', e) ->
  (e = Some ErrCantMakeSlice /\ r' = r) \/
  (e = None /\ exists n, growSize r size = Some n /\ 0 <= n /\
     alloc_ok n = true /\
     r' = set_buf r (fst (copy (repeat x00 (Z.to_nat n)) (buf r)))).
Proof.
  unfold Grow. destruct (growSize r size) as [n|] eqn:E; [ | discriminate].
  destruct (makeSlice alloc_ok n) as [b [[]|]] eqn:M.
  - intros [= <- <-]. left. auto.
  - intros [= <- <-]. right. apply makeSlice_ok in M as (H0 & Ha & ->).
    split; [reflexivity | ]. exists n. auto.
Qed.

(** A successful [Grow] changes the storage only: it has the size asked
    for, and keeps the old bytes in front when it does not shrink. *)
Lemma Grow_ok (r r' : RingBuffer) (size : Z) :
  Grow alloc_ok r size = Ret (r', None) ->
  exists n, growSize r size = Some n /\ len (buf r') = n /\
    pos r' = pos r /\ written r' = written r /\
    ringMode r' = ringMode r /\ maxSize r' = maxSize r /\
    (len (buf r) <= n ->
     buf r' = buf r ++ repeat x00 (Z.to_nat n - length (buf r))).
Proof.
  intros H. apply Grow_ret in H as [[? _] | (_ & n & Hn & H0 & _ & ->)];
    [discriminate | ].
  exists n. unfold set_buf. cbn [buf pos written ringMode maxSize].
  rewrite copy_len, len_repeat by assumption.
  repeat split; try assumption. intros Hle.
  rewrite copy_prefix by (rewrite len_repeat; assumption).
  rewrite skipn_repeat. reflexivity.
Qed.

(** *** Writing in growing mode *)

(** The three ways [write] returns: the error of [Grow], the copy that
    fits, and the hand-over to [writeRing]. *)
Lemma write_ret (r r' : RingBuffer) (p : list byte) (n : Z)
      (e : option error) :
  write alloc_ok r p = Ret (r', n, e) ->
  let size := GoInt.add (pos r) (len p) in
  (e = Some ErrCantMakeSlice /\ n = 0 /\ r' = r /\ len (buf r) < size) \/
  (exists r1, grown alloc_ok r r1 size /\
     ((size <= len (buf r1) /\ e = None /\
       exists b, copy_at (buf r1) (pos r1) p = Ret (b, n) /\
                 r' = copied r1 b n) \/
      (len (buf r1) < size /\
       writeRing (set_ringMode r1 true) p = Ret (r', n, e)))).
Proof.
  intros H size. unfold write in H. fold size in H.
  assert (G : exists r1 e1,
             (if len (buf r) <? size then Grow alloc_ok r size
              else Ret (r, None)) = Ret (r1, e1) /\
             ((e1 = Some ErrCantMakeSlice /\ r1 = r /\ len (buf r) < size) \/
              (e1 = None /\ grown alloc_ok r r1 size))).
  { destruct (Z.ltb_spec (len (buf r)) size) as [Hlt | Hge].
    - destruct (Grow alloc_ok r size) as [[r1 e1]| |] eqn:E;
        try discriminate.
      exists r1, e1. split; [reflexivity | ].
      destruct (Grow_ret _ _ _ _ E) as [[-> ->] | [-> _]].
      + left. auto.
      + right. split; [reflexivity | ]. right. auto.
    - exists r, None. split; [reflexivity | ]. right.
      split; [reflexivity | ]. left. auto. }
  destruct G as (r1 & e1 & G & [(-> & -> & Hlt) | (-> & Hg)]);
    rewrite G in H; cbn [bind] in H.
  - injection H as <- <- <-. left. auto.
  - right. exists r1. split; [assumption | ].
    assert (Hpos : pos r1 = pos r).
    { destruct Hg as [[_ ->] | [_ Hg]]; [reflexivity | ].
      apply Grow_ok in Hg as (m & _ & _ & Hp & _). exact Hp. }
    replace (GoInt.add (pos r1) (len p)) with size in H
      by (unfold size; rewrite Hpos; reflexivity).
    destruct (Z.geb_spec (len (buf r1)) size) as [Hfit | Hno].
    + left. split; [lia | ].
      destruct (copy_at (buf r1) (pos r1) p) as [[b m]| |] eqn:C;
        try discriminate.
      cbn [bind] in H. injection H as <- <- <-.
      split; [reflexivity | ]. exists b. split; reflexivity.
    + right. split; assumption.
Qed.

Lemma copied_fields (r1 : RingBuffer) (b : list byte) (n : Z) :
  buf (copied r1 b n) = b /\
  maxSize (copied r1 b n) = maxSize r1 /\
  written (copied r1 b n) = GoInt.add (written r1) n /\
  ((GoInt.add (pos r1) n = maxSize r1 /\
    ringMode (copied r1 b n) = true /\ pos (copied r1 b n) = 0) \/
   (GoInt.add (pos r1) n <> maxSize r1 /\
    ringMode (copied r1 b n) = ringMode r1 /\
    pos (copied r1 b n) = GoInt.add (pos r1) n)).
Proof.
  unfold copied. cbn [pos maxSize].
  destruct (Z.eqb_spec (GoInt.add (pos r1) n) (maxSize r1));
    cbn; repeat split; auto.
Qed.

(** *** The storage never passes the limit *)

Lemma Grow_capped (r r' : RingBuffer) (size : Z) (e : option error) :
  Grow alloc_ok r size = Ret (r', e) -> capped r ->
  capped r' /\ maxSize r' = maxSize r.
Proof.
  intros H Hc. destruct e as [e|].
  - apply Grow_ret in H as [[_ ->] | [? _]]; [auto | discriminate].
  - apply Grow_ok in H as (m & Hm & Hl & _ & _ & _ & HM & _).
    apply growSize_spec in Hm. unfold capped. lia.
Qed.

Lemma write_capped (r r' : RingBuffer) (p : list byte) (n : Z)
      (e : option error) :
  write alloc_ok r p = Ret (r', n, e) -> capped r ->
  capped r' /\ maxSize r' = maxSize r.
Proof.
  intros H Hc.
  apply write_ret in H as [(_ & _ & -> & _) | (r1 & Hg & H)]; [auto | ].
  assert (H1 : capped r1 /\ maxSize r1 = maxSize r).
  { destruct Hg as [[_ ->] | [_ Hg]]; [auto | ].
    eapply Grow_capped; eassumption. }
  destruct H1 as [Hc1 HM1]. unfold capped in *.
  destruct H as [(_ & _ & b & C & ->) | (_ & W)].
  - apply copy_at_ret in C as (_ & _ & Hb & _).
    destruct (copied_fields r1 b n) as (-> & -> & _). lia.
  - apply writeRing_ret in W as (_ & _ & HM & _ & Hl & _).
    cbn [set_ringMode buf maxSize] in *. lia.
Qed.

Lemma Write_capped (r r' : RingBuffer) (p : list byte) (n : Z)
      (e : option error) :
  Write alloc_ok r p = Ret (r', n, e) -> capped r ->
  capped r' /\ maxSize r' = maxSize r.
Proof.
  unfold Write. destruct (ringMode r); [ | apply write_capped].
  intros W Hc. apply writeRing_ret in W as (_ & _ & HM & _ & Hl & _).
  unfold capped in *. lia.
Qed.

Lemma step_capped (r r' : RingBuffer) (o : op) :
  step alloc_ok r o = Ret r' -> capped r ->
  capped r' /\ maxSize r' = maxSize r.
Proof.
  destruct o as [p | size | | ]; cbn [step].
  - destruct (Write alloc_ok r p) as [[[r1 n] e]| |] eqn:W; try discriminate.
    cbn. intros [= <-]. eapply Write_capped; eassumption.
  - destruct (Grow alloc_ok r size) as [[r1 e]| |] eqn:G; try discriminate.
    cbn. intros [= <-]. eapply Grow_capped; eassumption.
  - destruct (Bytes r); cbn; try discriminate. intros [= <-]. auto.
  - intros [= <-]. auto.
Qed.

Lemma run_capped (ops : list op) (r r' : RingBuffer) :
  run alloc_ok r ops = Ret r' -> capped r ->
  capped r' /\ maxSize r' = maxSize r.
Proof.
  revert r. induction ops as [|o ops IH]; intros r; cbn [run].
  - intros [= <-]. auto.
  - destruct (step alloc_ok r o) as [r1| |] eqn:S; try discriminate.
    cbn [bind]. intros H Hc.
    destruct (step_capped _ _ _ S Hc) as [Hc1 HM1].
    destruct (IH _ H Hc1) as [Hc' HM']. split; [assumption | congruence].
Qed.

Lemma NewRingBuffer_ret (i M : Z) (r : RingBuffer) :
  NewRingBuffer alloc_ok i M = Ret r ->
  let n := if i >? M then M else i in
  0 <= n /\ r = mkRingBuffer (repeat x00 (Z.to_nat n)) 0 0 false M.
Proof.
  unfold NewRingBuffer. intros H. set (n := if i >? M then M else i) in *.
  destruct (Z.leb_spec 0 n); cbn in H; [ | discriminate].
  destruct (alloc_ok n); [ | discriminate]. injection H as <-. auto.
Qed.

Lemma NewRingBuffer_capped (i M : Z) (r : RingBuffer) :
  NewRingBuffer alloc_ok i M = Ret r -> capped r /\ maxSize r = M.
Proof.
  intros H. apply NewRingBuffer_ret in H as [H0 ->].
  unfold capped. cbn [buf maxSize]. rewrite len_repeat by assumption.
  destruct (Z.gtb_spec i M); lia.
Qed.

(** *** The data model is kept *)

(** After its growth step [write] holds the same buffer with storage that
    is at least as long, starts with the old bytes, and either covers the
    request or is at the limit. *)
Lemma grown_wf (r r1 : RingBuffer) (size : Z) :
  wf r -> grown alloc_ok r r1 size ->
  wf r1 /\ pos r1 = pos r /\ written r1 = written r /\
  ringMode r1 = ringMode r /\ maxSize r1 = maxSize r /\
  (len (buf r1) = maxSize r \/ size <= len (buf r1)) /\
  exists z, buf r1 = buf r ++ z.
Proof.
  intros (Hpos & Hcap & HM & Hring) [[Hs ->] | [Hs G]].
  - split; [unfold wf; auto | ]. do 4 (split; [reflexivity | ]).
    split; [right; assumption | ]. exists []. symmetry. apply app_nil_r.
  - apply Grow_ok in G as (m & Hm & Hl & Hp & Hw & Hr & HM' & Hb).
    apply growSize_spec in Hm.
    assert (Hle : len (buf r) <= m) by lia.
    specialize (Hb Hle). unfold wf.
    rewrite Hl, Hp, Hr, HM'. repeat split; try lia; try assumption.
    + intros Ht. specialize (Hring Ht). lia.
    + eexists. exact Hb.
Qed.

Lemma Grow_wf (r r' : RingBuffer) (size : Z) (e : option error) :
  Grow alloc_ok r size = Ret (r', e) -> wf r ->
  wf r' /\ maxSize r' = maxSize r.
Proof.
  intros G Hwf. destruct e as [e|].
  - apply Grow_ret in G as [[_ ->] | [? _]]; [auto | discriminate].
  - destruct (Z.lt_ge_cases (len (buf r)) size) as [Hlt | Hge].
    + destruct (grown_wf r r' size Hwf) as (H & _ & _ & _ & HM & _);
        [right | ]; auto.
    + pose proof (G' := G).
      apply Grow_ok in G as (m & Hm & Hl & Hp & Hw & Hr & HM' & Hb).
      apply growSize_spec in Hm. destruct Hwf as (Hpos & Hcap & HM & Hring).
      unfold wf. rewrite Hl, Hp, Hr, HM'. repeat split; try lia.
      intros Ht. specialize (Hring Ht). lia.
Qed.

Lemma writeRing_wf (r r' : RingBuffer) (p : list byte) (n : Z)
      (e : option error) :
  writeRing r p = Ret (r', n, e) ->
  len (buf r) = maxSize r -> maxSize r <= GoInt.maxInt ->
  wf r' /\ maxSize r' = maxSize r /\ ringMode r' = ringMode r.
Proof.
  intros W Hl HM.
  apply writeRing_ret in W as (_ & _ & HM' & Hr & Hl' & _ & Hpos).
  unfold wf. rewrite Hl', HM'. repeat split; try lia. assumption.
Qed.

Lemma write_wf (r r' : RingBuffer) (p : list byte) (n : Z)
      (e : option error) :
  write alloc_ok r p = Ret (r', n, e) -> wf r ->
  wf r' /\ maxSize r' = maxSize r.
Proof.
  intros H Hwf.
  apply write_ret in H as [(_ & _ & -> & _) | (r1 & Hg & H)]; [auto | ].
  destruct (grown_wf _ _ _ Hwf Hg)
    as ((Hpos & Hcap & HM & Hring) & Hp & Hw & Hr & HM1 & Hfull & _).
  destruct H as [(Hfit & _ & b & C & ->) | (Hno & W)].
  - apply copy_at_ret in C as (_ & Hn & Hb & _).
    pose proof (len_nonneg p) as Hlp.
    assert (Hadd : GoInt.add (pos r1) n = pos r1 + n).
    { apply add_id. int_range. }
    destruct (copied_fields r1 b n)
      as (Eb & EM & _ & [(Heq & Er & Ep) | (Hne & Er & Ep)]);
      unfold wf; rewrite Eb, EM, Er, Ep, Hb; repeat split; try lia.
    assumption.
  - apply writeRing_wf in W; cbn [set_ringMode buf maxSize] in *;
      [ | lia | lia].
    destruct W as (Hwf' & HM' & _). split; [assumption | lia].
Qed.

Lemma Write_wf (r r' : RingBuffer) (p : list byte) (n : Z)
      (e : option error) :
  Write alloc_ok r p = Ret (r', n, e) -> wf r ->
  wf r' /\ maxSize r' = maxSize r.
Proof.
  unfold Write. destruct (ringMode r) eqn:Er; [ | apply write_wf].
  intros W (Hpos & Hcap & HM & Hring).
  apply writeRing_wf in W; [tauto | auto | assumption].
Qed.

Lemma Reset_wf (r : RingBuffer) : wf r -> wf (Reset r).
Proof.
  intros (Hpos & Hcap & HM & Hring). unfold wf, Reset.
  cbn [set_pos set_ringMode set_written buf pos ringMode maxSize].
  repeat split; try lia; discriminate.
Qed.

Lemma step_wf (r r' : RingBuffer) (o : op) :
  step alloc_ok r o = Ret r' -> wf r -> wf r' /\ maxSize r' = maxSize r.
Proof.
  destruct o as [p | size | | ]; cbn [step].
  - destruct (Write alloc_ok r p) as [[[r1 n] e]| |] eqn:W; try discriminate.
    cbn. intros [= <-]. eapply Write_wf; eassumption.
  - destruct (Grow alloc_ok r size) as [[r1 e]| |] eqn:G; try discriminate.
    cbn. intros [= <-]. eapply Grow_wf; eassumption.
  - destruct (Bytes r); cbn; try discriminate. intros [= <-]. auto.
  - intros [= <-] H. split; [apply Reset_wf, H | reflexivity].
Qed.

Lemma run_wf (ops : list op) (r r' : RingBuffer) :
  run alloc_ok r ops = Ret r' -> wf r -> wf r' /\ maxSize r' = maxSize r.
Proof.
  revert r. induction ops as [|o ops IH]; intros r; cbn [run].
  - intros [= <-]. auto.
  - destruct (step alloc_ok r o) as [r1| |] eqn:S; try discriminate.
    cbn [bind]. intros H Hwf.
    destruct (step_wf _ _ _ S Hwf) as [Hwf1 HM1].
    destruct (IH _ H Hwf1) as [Hwf' HM']. split; [assumption | congruence].
Qed.

Lemma NewRingBuffer_wf (i M : Z) (r : RingBuffer) :
  NewRingBuffer alloc_ok i M = Ret r -> M <= GoInt.maxInt ->
  wf r /\ maxSize r = M.
Proof.
  intros H HM. apply NewRingBuffer_ret in H as [H0 ->].
  unfold wf. cbn [buf pos ringMode maxSize]. rewrite len_repeat by assumption.
  destruct (Z.gtb_spec i M); repeat split; try lia; discriminate.
Qed.

(** *** What a write that does not overflow an [int] does *)

Lemma firstn_two (a b c : list byte) (n : nat) :
  n = (length a + length b)%nat -> firstn n (a ++ b ++ c) = a ++ b.
Proof.
  intros ->. rewrite app_assoc, <- length_app, firstn_app.
  rewrite firstn_all, Nat.sub_diag, firstn_O. apply app_nil_r.
Qed.

Lemma firstn_front (a z : list byte) (n : nat) :
  (n <= length a)%nat -> firstn n (a ++ z) = firstn n a.
Proof.
  intros H. rewrite firstn_app.
  replace (n - length a)%nat with 0%nat by lia.
  rewrite firstn_O. apply app_nil_r.
Qed.

(** A successful write takes all of its input and counts all of it; when
    the buffer is still growing afterwards, the input sits right behind
    the old contents. *)
Lemma Write_exact (r r' : RingBuffer) (p : list byte) (n : Z) :
  wf r -> maxSize r + len p <= GoInt.maxInt ->
  Write alloc_ok r p = Ret (r', n, None) ->
  n = len p /\ written r' = GoInt.add (written r) (len p) /\
  (ringMode r' = false ->
   ringMode r = false /\ pos r' = pos r + len p /\
   firstn (Z.to_nat (pos r')) (buf r') =
     firstn (Z.to_nat (pos r)) (buf r) ++ p).
Proof.
  intros Hwf Hbound W. unfold Write in W.
  destruct (ringMode r) eqn:Er.
  { apply writeRing_ret in W as (-> & _ & _ & Hr & _ & Hw & _).
    repeat split; try assumption; congruence. }
  pose proof (len_nonneg p) as Hlp.
  pose proof Hwf as (Hpos & Hcap & HM & _).
  assert (Hsize : GoInt.add (pos r) (len p) = pos r + len p).
  { apply add_id. int_range. }
  apply write_ret in W as [(? & _) | (r1 & Hg & W)]; [discriminate | ].
  rewrite Hsize in *.
  destruct (grown_wf _ _ _ Hwf Hg)
    as ((Hpos1 & Hcap1 & HM1 & _) & Hp & Hw & Hr & HMeq & _ & z & Hz).
  destruct W as [(Hfit & _ & b & C & ->) | (Hno & W)].
  - apply copy_at_ret in C as (_ & Hn & Hb & Eb).
    assert (En : n = len p) by lia. clear Hn. subst n.
    destruct (copied_fields r1 b (len p))
      as (Eb' & _ & Ew & [(_ & Et & _) | (_ & Et & Ep)]);
      rewrite Ew, Hw; (split; [reflexivity | ]); (split; [reflexivity | ]);
      rewrite Et.
    + discriminate.
    + intros _. rewrite Eb', Ep, Hp, Hsize.
      repeat split. rewrite Eb, Hp, Hz.
      rewrite (firstn_front (buf r) z) by (unfold len in *; lia).
      rewrite firstn_all2 with (l := p) by (unfold len; lia).
      apply firstn_two. rewrite length_firstn. unfold len in *. lia.
  - apply writeRing_ret in W as (-> & _ & _ & Ht & _ & Hw' & _).
    cbn [set_ringMode written ringMode] in *.
    repeat split; try congruence.
Qed.

Lemma total_nonneg (ps : list (list byte)) : 0 <= total ps.
Proof.
  unfold total. induction ps as [|p ps IH]; cbn; [lia | ].
  pose proof (len_nonneg p). fold len. lia.
Qed.

Lemma writeAll_cons (r r' : RingBuffer) (p : list byte)
      (ps : list (list byte)) (ns : list Z) :
  writeAll alloc_ok r (p :: ps) = Some (r', ns) ->
  exists r1 n ns', Write alloc_ok r p = Ret (r1, n, None) /\
    writeAll alloc_ok r1 ps = Some (r', ns') /\ ns = n :: ns'.
Proof.
  cbn [writeAll].
  destruct (Write alloc_ok r p) as [[[r1 n] [e|]]| |]; try discriminate.
  destruct (writeAll alloc_ok r1 ps) as [[r2 ns']|] eqn:E; try discriminate.
  intros [= <- <-]. exists r1, n, ns'. auto.
Qed.

Lemma writeAll_content (ps : list (list byte)) (r r' : RingBuffer)
      (ns : list Z) :
  wf r -> Forall (fun p => maxSize r + len p <= GoInt.maxInt) ps ->
  writeAll alloc_ok r ps = Some (r', ns) -> ringMode r' = false ->
  wf r' /\ ringMode r = false /\
  firstn (Z.to_nat (pos r')) (buf r') =
    firstn (Z.to_nat (pos r)) (buf r) ++ concat ps.
Proof.
  revert r ns. induction ps as [|p ps IH]; intros r ns Hwf Hb W Hr.
  - injection W as <- <-. rewrite app_nil_r. auto.
  - apply writeAll_cons in W as (r1 & n & ns' & W & Wr & _).
    inversion Hb as [|? ? Hp Hps]; subst.
    destruct (Write_wf _ _ _ _ _ W Hwf) as [Hwf1 HM1].
    rewrite <- HM1 in Hps.
    destruct (IH _ _ Hwf1 Hps Wr Hr) as (Hwf' & Hr1 & Hc).
    destruct (Write_exact _ _ _ _ Hwf Hp W) as (_ & _ & He).
    destruct (He Hr1) as (Hr0 & _ & Hc1).
    split; [assumption | split; [assumption | ]].
    rewrite Hc, Hc1. cbn [concat]. rewrite app_assoc. reflexivity.
Qed.

Lemma writeAll_written (ps : list (list byte)) (r r' : RingBuffer)
      (ns : list Z) :
  wf r -> 0 <= written r ->
  maxSize r + (written r + total ps) <= GoInt.maxInt ->
  writeAll alloc_ok r ps = Some (r', ns) ->
  written r' = written r + total ps /\ ns = map len ps.
Proof.
  revert r ns. induction ps as [|p ps IH]; intros r ns Hwf H0 Hb W.
  - injection W as <- <-. cbn. split; [lia | reflexivity].
  - apply writeAll_cons in W as (r1 & n & ns' & W & Wr & ->).
    pose proof (total_nonneg ps) as Ht. pose proof (len_nonneg p) as Hlp.
    pose proof Hwf as (Hpos & Hcap & HM & _).
    pose proof (len_nonneg (buf r)) as Hlb.
    change (total (p :: ps)) with (len p + total ps) in *.
    destruct (Write_wf _ _ _ _ _ W Hwf) as [Hwf1 HM1].
    assert (Hbp : maxSize r + len p <= GoInt.maxInt) by lia.
    destruct (Write_exact _ _ _ _ Hwf Hbp W) as (-> & Hw & _).
    rewrite add_id in Hw by int_range.
    assert (H1 : 0 <= written r1) by lia.
    assert (Hb1 : maxSize r1 + (written r1 + total ps) <= GoInt.maxInt)
      by lia.
    destruct (IH r1 ns' Hwf1 H1 Hb1 Wr) as [Hw' ->].
    split; [lia | reflexivity].
Qed.

Lemma reachable_wf (r : RingBuffer) : reachable alloc_ok r -> wf r.
Proof.
  induction 1 as [i M r HM H | r r' o _ IH S].
  - apply (NewRingBuffer_wf i M r H). apply HM.
  - apply (step_wf _ _ _ S IH).
Qed.

Lemma fresh_start (r : RingBuffer) :
  fresh alloc_ok r ->
  wf r /\ pos r = 0 /\ written r = 0 /\ ringMode r = false.
Proof.
  intros [i M r0 HM H | r0 H].
  - split; [apply (NewRingBuffer_wf i M r0 H), HM | ].
    apply NewRingBuffer_ret in H as [_ ->]. auto.
  - split; [apply Reset_wf, reachable_wf, H | auto].
Qed.

End Calls.

(** * The properties of the specification *)

(** ** Growing mode keeps everything *)

(** C3: after construction or after [Reset], for every sequence of
    successful [Write] calls whose lengths fit an [int] next to the limit,
    as long as the buffer is not in ring mode [Bytes] returns exactly the
    concatenation of the inputs in the order they were written. *)
Theorem no_loss_while_growing (alloc_ok : Z -> bool) (r0 r : RingBuffer)
        (ps : list (list byte)) (ns : list Z) :
  fresh alloc_ok r0 ->
  Forall (fun p => maxSize r0 + len p <= GoInt.maxInt) ps ->
  writeAll alloc_ok r0 ps = Some (r, ns) ->
  ringMode r = false ->
  Bytes r = Ret (concat ps).
Proof.
  intros Hf Hb W Hr.
  apply fresh_start in Hf as (Hwf & Hp & _ & _).
  destruct (writeAll_content alloc_ok ps r0 r ns Hwf Hb W Hr)
    as ((Hpos & _) & _ & Hc).
  unfold Bytes. rewrite Hr, upto_ok by assumption.
  rewrite Hc, Hp. reflexivity.
Qed.

Lemma no_loss_while_growing_witness :
  exists r ns,
    writeAll always (mkRingBuffer (repeat x00 3) 0 0 false 7)
      [bytes_of "ab"; bytes_of "cd"; bytes_of "e"] = Some (r, ns) /\
    Bytes r = Ret (bytes_of "abcde").
Proof.
  eexists. eexists. split.
  - vm_compute. reflexivity.
  - apply (no_loss_while_growing always
             (mkRingBuffer (repeat x00 3) 0 0 false 7) _
             [bytes_of "ab"; bytes_of "cd"; bytes_of "e"] [2; 2; 1]).
    + apply (fresh_new always 3 7); [ | reflexivity].
      int_range.
    + repeat constructor; vm_compute; discriminate.
    + vm_compute. reflexivity.
    + reflexivity.
Defined.

(** ** The limit on the storage *)

(** C4: for a buffer constructed with limit [M], after every sequence of
    [Write], [Grow], [Bytes] and [Reset] calls with any arguments, [Cap] is
    at most [M]. *)
Theorem capacity_ceiling (alloc_ok : Z -> bool) (i M : Z) (r0 r : RingBuffer)
        (ops : list op) :
  NewRingBuffer alloc_ok i M = Ret r0 ->
  run alloc_ok r0 ops = Ret r ->
  Cap r <= M.
Proof.
  intros H R. apply NewRingBuffer_capped in H as [Hc HM].
  destruct (run_capped alloc_ok ops r0 r R Hc) as [Hc' HM'].
  unfold capped, Cap in *. lia.
Qed.

Lemma capacity_ceiling_witness :
  exists r,
    run always (mkRingBuffer (repeat x00 3) 0 0 false 7)
      [OpWrite (bytes_of "abcdefghijk"); OpGrow 100; OpBytes; OpReset;
       OpWrite (bytes_of "xy"); OpGrow (-1)] = Ret r /\
    Cap r <= 7.
Proof.
  eexists. split.
  - vm_compute. reflexivity.
  - apply (capacity_ceiling always 3 7
             (mkRingBuffer (repeat x00 3) 0 0 false 7) _
             [OpWrite (bytes_of "abcdefghijk"); OpGrow 100; OpBytes; OpReset;
              OpWrite (bytes_of "xy"); OpGrow (-1)]); vm_compute; reflexivity.
Defined.

(** C5: in every buffer reached from construction by [Write], [Grow],
    [Bytes] and [Reset] calls, ring mode implies that the storage has
    exactly the length of the limit; so no call enters ring mode with less
    storage than the limit. *)
Theorem ring_mode_full (alloc_ok : Z -> bool) (i M : Z) (r0 r : RingBuffer)
        (ops : list op) :
  GoInt.is_int M ->
  NewRingBuffer alloc_ok i M = Ret r0 ->
  run alloc_ok r0 ops = Ret r ->
  ringMode r = true ->
  Cap r = M.
Proof.
  intros HM H R Hr. apply NewRingBuffer_wf in H as [Hwf HM0]; [ | apply HM].
  destruct (run_wf alloc_ok ops r0 r R Hwf) as [(_ & _ & _ & Hfull) HM'].
  unfold Cap. rewrite (Hfull Hr). congruence.
Qed.

Lemma ring_mode_full_witness :
  exists r,
    run always (mkRingBuffer (repeat x00 3) 0 0 false 7)
      [OpWrite (bytes_of "abc"); OpWrite (bytes_of "defgh"); OpGrow 2;
       OpBytes] = Ret r /\
    ringMode r = true /\ Cap r = 7.
Proof.
  eexists. split; [vm_compute; reflexivity | ]. split; [reflexivity | ].
  apply (ring_mode_full always 3 7
           (mkRingBuffer (repeat x00 3) 0 0 false 7) _
           [OpWrite (bytes_of "abc"); OpWrite (bytes_of "defgh"); OpGrow 2;
            OpBytes]).
  - int_range.
  - reflexivity.
  - vm_compute. reflexivity.
  - reflexivity.
Defined.

(** ** The counter of written bytes *)

(** C7: after construction or after [Reset], for successful [Write] calls
    of sizes [s_1 .. s_k] whose sum fits an [int] next to the limit,
    [Written] is [s_1 + ... + s_k] whatever the mode, also when a write in
    ring mode is longer than the limit, and every call returns the full
    length of its input. *)
Theorem written_counts_everything (alloc_ok : Z -> bool) (r0 r : RingBuffer)
        (ps : list (list byte)) (ns : list Z) :
  fresh alloc_ok r0 ->
  maxSize r0 + total ps <= GoInt.maxInt ->
  writeAll alloc_ok r0 ps = Some (r, ns) ->
  Written r = total ps /\ ns = map len ps.
Proof.
  intros Hf Hb W. apply fresh_start in Hf as (Hwf & _ & Hw & _).
  destruct (writeAll_written alloc_ok ps r0 r ns Hwf) as [Hw' Hns];
    try assumption; try lia.
  unfold Written. split; [lia | assumption].
Qed.

Lemma written_counts_everything_witness :
  exists r,
    writeAll always (mkRingBuffer (repeat x00 3) 0 0 false 7)
      [bytes_of "abcdefg"; bytes_of "hijklmnopqrs"; bytes_of "t"]
      = Some (r, [7; 12; 1]) /\
    ringMode r = true /\ Written r = 20.
Proof.
  eexists. split; [vm_compute; reflexivity | ]. split; [reflexivity | ].
  apply (written_counts_everything always
           (mkRingBuffer (repeat x00 3) 0 0 false 7) _
           [bytes_of "abcdefg"; bytes_of "hijklmnopqrs"; bytes_of "t"]
           [7; 12; 1]).
  - apply (fresh_new always 3 7); [ | reflexivity].
    int_range.
  - vm_compute. discriminate.
  - vm_compute. reflexivity.
Defined.

(** ** Errors *)

(** Whatever [Write] or [Grow] returns next to an error, the buffer is the
    one they were called on, and [Write] reports no byte written. *)
Lemma error_leaves_buffer (alloc_ok : Z -> bool) (r r' : RingBuffer)
      (e : error) :
  (forall size, Grow alloc_ok r size = Ret (r', Some e) -> r' = r) /\
  (forall p n, Write alloc_ok r p = Ret (r', n, Some e) -> r' = r /\ n = 0).
Proof.
  split.
  - intros size G. apply Grow_ret in G as [[_ ->] | [? _]];
      [reflexivity | discriminate].
  - intros p n W. unfold Write in W. destruct (ringMode r).
    + apply writeRing_ret in W as (_ & ? & _). discriminate.
    + apply write_ret in W as [(_ & -> & -> & _) | (r1 & _ & W)]; [auto | ].
      destruct W as [(_ & ? & _) | (_ & W)]; [discriminate | ].
      apply writeRing_ret in W as (_ & ? & _). discriminate.
Qed.

(** C9: whenever the allocation that [Grow] asks for cannot be obtained,
    [Grow] returns the error and leaves the buffer exactly as it was, and a
    [Write] that needed this growth returns the error with zero bytes
    written and the buffer exactly as it was. *)
Theorem alloc_failure_atomic (alloc_ok : Z -> bool) (r : RingBuffer)
        (size n : Z) (b : list byte) (e : error) :
  growSize r size = Some n ->
  makeSlice alloc_ok n = (b, Some e) ->
  Grow alloc_ok r size = Ret (r, Some e) /\
  (forall p, ringMode r = false ->
             len (buf r) < GoInt.add (pos r) (len p) ->
             size = GoInt.add (pos r) (len p) ->
             Write alloc_ok r p = Ret (r, 0, Some e)).
Proof.
  intros Hn Hm.
  assert (G : Grow alloc_ok r size = Ret (r, Some e)).
  { unfold Grow. rewrite Hn, Hm. reflexivity. }
  split; [exact G | ]. intros p Hr Hlt ->.
  unfold Write, write. rewrite Hr.
  destruct (Z.ltb_spec (len (buf r)) (GoInt.add (pos r) (len p))); [ | lia].
  rewrite G. reflexivity.
Qed.

Lemma alloc_failure_atomic_witness :
  Grow (fun n => n <? 5) (mkRingBuffer (repeat x00 3) 0 0 false 7) 5
    = Ret (mkRingBuffer (repeat x00 3) 0 0 false 7, Some ErrCantMakeSlice) /\
  Write (fun n => n <? 5) (mkRingBuffer (repeat x00 3) 0 0 false 7)
    (bytes_of "abcde")
    = Ret (mkRingBuffer (repeat x00 3) 0 0 false 7, 0, Some ErrCantMakeSlice).
Proof.
  destruct (alloc_failure_atomic (fun n => n <? 5)
              (mkRingBuffer (repeat x00 3) 0 0 false 7) 5 6 []
              ErrCantMakeSlice)
    as [G W]; [reflexivity | reflexivity | ].
  split; [exact G | ]. apply W; [reflexivity | vm_compute; reflexivity | ].
  reflexivity.
Defined.

(** C10: in ring mode, with the cursor inside the storage, [Write] of any
    input, empty or longer than the limit, returns the length of the input
    and no error; the result does not depend on the allocator, and the
    storage keeps its length. *)
Theorem ring_write_never_fails (r : RingBuffer) (p : list byte) :
  ringMode r = true ->
  0 <= pos r <= len (buf r) ->
  exists r',
    (forall alloc_ok, Write alloc_ok r p = Ret (r', len p, None)) /\
    Cap r' = Cap r.
Proof.
  intros Hr Hpos. destruct (writeRing_ok r p Hpos) as (b & c & W & Hb & _).
  eexists. split.
  - intros alloc_ok. unfold Write. rewrite Hr. exact W.
  - unfold Cap. cbn [buf]. exact Hb.
Qed.

Lemma ring_write_never_fails_witness :
  exists r',
    (forall alloc_ok,
        Write alloc_ok (mkRingBuffer (bytes_of "abcdefg") 2 14 true 7)
          (bytes_of "0123456789") = Ret (r', 10, None)) /\
    Cap r' = Cap (mkRingBuffer (bytes_of "abcdefg") 2 14 true 7).
Proof.
  apply (ring_write_never_fails
           (mkRingBuffer (bytes_of "abcdefg") 2 14 true 7)
           (bytes_of "0123456789"));
    [reflexivity | vm_compute; split; discriminate].
Defined.

(** ** Growth by doubling *)

Lemma pow2_up_ge (k : Z) : 1 <= k -> k <= 2 ^ Z.log2_up k.
Proof. intros H. apply Z.log2_up_le_pow2; lia. Qed.

Lemma pow2_up_stay (k : Z) :
  1 <= k -> k + 1 <= 2 ^ Z.log2_up k -> Z.log2_up (k + 1) = Z.log2_up k.
Proof.
  intros H1 H. apply Z.le_antisymm.
  - apply Z.log2_up_le_pow2; lia.
  - apply Z.log2_up_le_mono. lia.
Qed.

Lemma pow2_up_double (k : Z) :
  1 <= k -> 2 ^ Z.log2_up k = k -> 2 ^ Z.log2_up (k + 1) = 2 * k.
Proof.
  intros H1 H. pose proof (Z.log2_up_nonneg k) as Hj.
  assert (E : Z.log2_up (k + 1) = Z.succ (Z.log2_up k)).
  { apply Z.le_antisymm.
    - apply Z.log2_up_le_pow2; [lia | ]. rewrite Z.pow_succ_r by assumption. lia.
    - apply Z.le_succ_l. apply Z.log2_up_lt_pow2; lia. }
  rewrite E, Z.pow_succ_r by assumption. lia.
Qed.

Lemma doubled_le (M k : Z) : 0 <= M -> doubled M k <= M.
Proof. intros H. unfold doubled. destruct (k =? 0); lia. Qed.

(** No growth is needed as long as the power of two holds one more byte. *)
Lemma doubled_stay (M k : Z) :
  0 <= k -> k + 1 <= doubled M k -> doubled M (k + 1) = doubled M k.
Proof.
  unfold doubled. intros H0 H.
  destruct (Z.eqb_spec k 0); [lia | ].
  destruct (Z.eqb_spec (k + 1) 0); [lia | ].
  rewrite pow2_up_stay by lia. reflexivity.
Qed.

(** [write] when its growth step succeeds and the input then fits. *)
Lemma write_fits (alloc_ok : Z -> bool) (r r1 : RingBuffer) (p : list byte) :
  (if len (buf r) <? GoInt.add (pos r) (len p)
   then Grow alloc_ok r (GoInt.add (pos r) (len p))
   else Ret (r, None)) = Ret (r1, None) ->
  pos r1 = pos r -> 0 <= pos r ->
  GoInt.add (pos r) (len p) = pos r + len p ->
  pos r + len p <= len (buf r1) ->
  exists b, len b = len (buf r1) /\
    write alloc_ok r p = Ret (copied r1 b (len p), len p, None).
Proof.
  intros G Hp H0 Hadd Hfit. pose proof (len_nonneg p) as Hlp.
  unfold write. rewrite G. cbn [bind]. rewrite Hp, Hadd.
  destruct (Z.geb_spec (len (buf r1)) (pos r + len p)); [ | lia].
  rewrite <- Hp. rewrite copy_at_ok by lia. cbn [bind].
  replace (Z.min (len (buf r1) - pos r1) (len p)) with (len p) by lia.
  eexists. split; [ | reflexivity]. cbn [set_written set_buf buf].
  unfold len in *. rewrite !length_app, !length_firstn, length_skipn. lia.
Qed.

(** [write] when its growth step succeeds and the input still does not
    fit. *)
Lemma write_overflows (alloc_ok : Z -> bool) (r r1 : RingBuffer)
      (p : list byte) :
  (if len (buf r) <? GoInt.add (pos r) (len p)
   then Grow alloc_ok r (GoInt.add (pos r) (len p))
   else Ret (r, None)) = Ret (r1, None) ->
  pos r1 = pos r ->
  len (buf r1) < GoInt.add (pos r) (len p) ->
  write alloc_ok r p = writeRing (set_ringMode r1 true) p.
Proof.
  intros G Hp Hno. unfold write. rewrite G. cbn [bind]. rewrite Hp.
  destruct (Z.geb_spec (len (buf r1)) (GoInt.add (pos r) (len p))); [lia | ].
  reflexivity.
Qed.

Lemma Grow_run (alloc_ok : Z -> bool) (r : RingBuffer) (size n : Z) :
  growSize r size = Some n -> 0 <= n -> alloc_ok n = true ->
  exists r1, Grow alloc_ok r size = Ret (r1, None) /\
    len (buf r1) = n /\ pos r1 = pos r /\ written r1 = written r /\
    ringMode r1 = ringMode r /\ maxSize r1 = maxSize r.
Proof.
  intros Hn H0 Ha. unfold Grow, makeSlice. rewrite Hn, Ha.
  destruct (Z.leb_spec 0 n); [ | lia]. cbn [andb].
  eexists. split; [reflexivity | ]. unfold set_buf.
  cbn [buf pos written ringMode maxSize].
  rewrite copy_len, len_repeat by assumption. auto.
Qed.

Section Doubling.

Variable alloc_ok : Z -> bool.
Variable M : Z.
Hypothesis M_range : 0 <= M <= 2 ^ 62.
Hypothesis alloc_fine : forall n, 0 <= n <= M -> alloc_ok n = true.

(** The growth step taken when the storage is full: one doubling, cut at
    the limit. *)
Lemma growSize_bytewise (k : Z) (r : RingBuffer) :
  0 <= k -> maxSize r = M -> len (buf r) = doubled M k ->
  len (buf r) < k + 1 -> k < M \/ k = 0 ->
  growSize r (k + 1) = Some (doubled M (k + 1)).
Proof.
  intros H0 HM Hl Hlt Hk. unfold growSize. rewrite Hl, HM.
  unfold doubled in *. destruct (Z.eqb_spec (k + 1) 0); [lia | ].
  destruct (Z.eqb_spec k 0) as [-> | Hk0].
  - cbn. destruct (Z.geb_spec 1 M); f_equal; lia.
  - pose proof (pow2_up_ge k ltac:(lia)) as Hge.
    assert (Hpow : 2 ^ Z.log2_up k = k) by lia.
    rewrite Hpow in *. rewrite (pow2_up_double k) by lia.
    replace (Z.min k M) with k by lia.
    destruct (Z.eqb_spec k 0); [lia | ].
    unfold growFuel. cbn [growLoop].
    destruct (Z.ltb_spec k (k + 1)); [ | lia].
    unfold GoInt.mul, expansionFactor.
    rewrite wrap_id by int_range.
    destruct (Z.ltb_spec (k * 2) (k + 1)); [lia | ].
    destruct (Z.geb_spec (k * 2) M); f_equal; lia.
Qed.

Lemma bytewise_step (k : Z) (r : RingBuffer) (b : byte) :
  0 <= k -> bytewise M k r ->
  exists r', Write alloc_ok r (single b) = Ret (r', 1, None) /\
             bytewise M (k + 1) r'.
Proof.
  intros H0 (HM & Hl & [(Hr & Hp & Hk) | (Hr & Hp & Hk1 & HMk)]).
  - (* growing mode *)
    unfold Write. rewrite Hr.
    assert (Hadd : GoInt.add (pos r) (len (single b)) = k + 1).
    { rewrite Hp. apply add_id.
      int_range. }
    assert (G : exists r1,
               (if len (buf r) <? GoInt.add (pos r) (len (single b))
                then Grow alloc_ok r (GoInt.add (pos r) (len (single b)))
                else Ret (r, None)) = Ret (r1, None) /\
               len (buf r1) = doubled M (k + 1) /\ pos r1 = pos r /\
               ringMode r1 = false /\ maxSize r1 = M).
    { rewrite Hadd. destruct (Z.ltb_spec (len (buf r)) (k + 1)) as [Hlt | Hge].
      - destruct (Grow_run alloc_ok r (k + 1) (doubled M (k + 1)))
          as (r1 & G & Hl1 & Hp1 & _ & Hr1 & HM1).
        + apply growSize_bytewise; assumption.
        + unfold doubled. destruct (k + 1 =? 0); [lia | ].
          pose proof (pow2_up_ge (k + 1)). lia.
        + apply alloc_fine. split; [ | apply doubled_le; lia].
          unfold doubled. destruct (k + 1 =? 0); [lia | ].
          pose proof (pow2_up_ge (k + 1)). lia.
        + exists r1. repeat split; congruence.
      - exists r. rewrite Hl in *. rewrite doubled_stay by assumption.
        repeat split; congruence. }
    destruct G as (r1 & G & Hl1 & Hp1 & Hr1 & HM1).
    assert (Hd : k + 1 <= doubled M (k + 1) \/ (k = 0 /\ M = 0)).
    { unfold doubled. destruct (Z.eqb_spec (k + 1) 0); [lia | ].
      pose proof (pow2_up_ge (k + 1)). lia. }
    destruct Hd as [Hfit | [-> ->]].
    + destruct (write_fits alloc_ok r r1 (single b) G Hp1)
        as (b' & Hb' & W); try lia.
      { rewrite Hadd, Hp. reflexivity. }
      { rewrite Hp, Hl1. exact Hfit. }
      eexists. split; [exact W | ].
      destruct (copied_fields r1 b' (len (single b)))
        as (Eb & EM & _ & [(Heq & Et & Ep) | (Hne & Et & Ep)]);
        unfold bytewise; rewrite Eb, EM, Et, Ep, Hb', Hl1, HM1;
        rewrite Hp1, Hadd in *; pose proof (doubled_le M (k + 1));
        (split; [reflexivity | ]); (split; [reflexivity | ]).
      * right. repeat split; lia.
      * left. rewrite Hr1. repeat split; lia.
    + rewrite (write_overflows alloc_ok r r1 (single b) G Hp1)
        by (rewrite Hadd, Hl1; cbn; lia).
      destruct (writeRing_ok (set_ringMode r1 true) (single b))
        as (b' & c & W & Hb' & Hc).
      { cbn [set_ringMode pos buf]. rewrite Hp1, Hp, Hl1. cbn. lia. }
      eexists. split; [exact W | ].
      cbn [set_ringMode buf pos written ringMode maxSize] in *.
      unfold bytewise. cbn [buf pos ringMode maxSize].
      rewrite Hb', Hl1, HM1. repeat split. right. repeat split; lia.
  - (* ring mode *)
    unfold Write. rewrite Hr.
    destruct (writeRing_ok r (single b) Hp) as (b' & c & W & Hb' & Hc).
    eexists. split; [exact W | ].
    unfold bytewise. cbn [buf pos ringMode maxSize]. rewrite Hb', Hl, HM, Hr.
    pose proof (pow2_up_ge k Hk1). pose proof (pow2_up_ge (k + 1)).
    assert (E : doubled M (k + 1) = doubled M k).
    { unfold doubled. destruct (Z.eqb_spec k 0), (Z.eqb_spec (k + 1) 0); lia. }
    rewrite E. repeat split. right. rewrite <- Hl, <- Hb'. repeat split; lia.
Qed.

Lemma bytewise_run (bs : list byte) (k : Z) (r : RingBuffer) :
  0 <= k -> bytewise M k r ->
  exists r' ns, writeAll alloc_ok r (map single bs) = Some (r', ns) /\
                bytewise M (k + len bs) r'.
Proof.
  revert k r. induction bs as [|b bs IH]; intros k r H0 Hinv.
  - exists r, []. split; [reflexivity | ].
    replace (k + len []) with k by (cbn; lia). assumption.
  - destruct (bytewise_step k r b H0 Hinv) as (r1 & W & Hinv1).
    destruct (IH (k + 1) r1 ltac:(lia) Hinv1) as (r' & ns & Ws & Hinv').
    exists r', (1 :: ns). cbn [map writeAll]. rewrite W, Ws.
    split; [reflexivity | ].
    replace (k + len (b :: bs)) with (k + 1 + len bs)
      by (unfold len; cbn [length]; lia).
    assumption.
Qed.

End Doubling.

(** C6: a buffer made with initial size 0 and limit [M] and written one
    byte at a time has, after [k >= 1] writes, the storage length
    [min (2 ^ ceil(log2 k)) M]: the lengths seen are 1, 2, 4, 8, ... while
    the power of two is below [M], and exactly [M] from the first growth
    step whose doubled size reaches [M]. *)
Theorem doubling_growth (alloc_ok : Z -> bool) (M : Z) (bs : list byte) :
  0 <= M <= 2 ^ 62 ->
  (forall n, 0 <= n <= M -> alloc_ok n = true) ->
  bs <> [] ->
  exists r0 r ns,
    NewRingBuffer alloc_ok 0 M = Ret r0 /\
    writeAll alloc_ok r0 (map single bs) = Some (r, ns) /\
    Cap r = Z.min (2 ^ Z.log2_up (len bs)) M.
Proof.
  intros HM Ha Hbs.
  assert (H0 : NewRingBuffer alloc_ok 0 M =
               Ret (mkRingBuffer [] 0 0 false M)).
  { unfold NewRingBuffer. destruct (Z.gtb_spec 0 M).
    - replace M with 0 by lia. rewrite Ha by lia. reflexivity.
    - rewrite Ha by lia. reflexivity. }
  destruct (bytewise_run alloc_ok M HM Ha bs 0 (mkRingBuffer [] 0 0 false M))
    as (r & ns & W & (_ & Hl & _)); [lia | | ].
  { unfold bytewise. cbn. repeat split. left. repeat split. right. reflexivity. }
  exists (mkRingBuffer [] 0 0 false M), r, ns.
  split; [exact H0 | ]. split; [exact W | ].
  unfold Cap. rewrite Hl. unfold doubled.
  destruct (Z.eqb_spec (0 + len bs) 0) as [E | _]; [ | reflexivity].
  destruct bs; [congruence | ]. unfold len in E. cbn [length] in E. lia.
Qed.

Lemma doubling_growth_witness :
  exists r0 r ns,
    NewRingBuffer always 0 21 = Ret r0 /\
    writeAll always r0 (map single (bytes_of "abcde")) = Some (r, ns) /\
    Cap r = 8.
Proof.
  apply (doubling_growth always 21 (bytes_of "abcde")).
  - lia.
  - reflexivity.
  - discriminate.
Defined.

(** ** Where a write in ring mode puts its bytes *)

Lemma at_app (a b : list byte) (i : Z) :
  0 <= i ->
  at_ (a ++ b) i = if i <? len a then at_ a i else at_ b (i - len a).
Proof.
  intros H. unfold at_, len. destruct (Z.ltb_spec i (Z.of_nat (length a))).
  - apply app_nth1. lia.
  - rewrite app_nth2 by lia. f_equal. lia.
Qed.

Lemma at_firstn (s : list byte) (n i : Z) :
  0 <= i < n -> at_ (firstn (Z.to_nat n) s) i = at_ s i.
Proof.
  intros H. unfold at_. rewrite nth_firstn.
  destruct (Nat.ltb_spec (Z.to_nat i) (Z.to_nat n)); [reflexivity | lia].
Qed.

Lemma at_skipn (s : list byte) (n i : Z) :
  0 <= n -> 0 <= i -> at_ (skipn (Z.to_nat n) s) i = at_ s (n + i).
Proof.
  intros Hn Hi. unfold at_. rewrite nth_skipn. f_equal. lia.
Qed.

Lemma len_firstn (s : list byte) (n : Z) :
  0 <= n <= len s -> len (firstn (Z.to_nat n) s) = n.
Proof. unfold len. rewrite length_firstn. lia. Qed.

Lemma len_skipn (s : list byte) (n : Z) :
  0 <= n <= len s -> len (skipn (Z.to_nat n) s) = len s - n.
Proof. unfold len. rewrite length_skipn. lia. Qed.

(** The storage after [copy(s[c:], p)] has copied [k] bytes. *)
Lemma at_copied (s p : list byte) (c k i : Z) :
  0 <= c -> 0 <= k <= len p -> c + k <= len s -> 0 <= i ->
  at_ (firstn (Z.to_nat c) s ++ firstn (Z.to_nat k) p
         ++ skipn (Z.to_nat (c + k)) s) i =
  if (c <=? i) && (i <? c + k) then at_ p (i - c) else at_ s i.
Proof.
  intros Hc Hk Hs Hi. pose proof (len_nonneg s).
  rewrite at_app, len_firstn by lia.
  destruct (Z.ltb_spec i c).
  - rewrite at_firstn by lia. destruct (Z.leb_spec c i); [lia | reflexivity].
  - rewrite at_app, len_firstn by lia.
    destruct (Z.leb_spec c i); [ | lia]. cbn [andb].
    destruct (Z.ltb_spec (i - c) k), (Z.ltb_spec i (c + k)); try lia.
    + apply at_firstn. lia.
    + rewrite at_skipn by lia. f_equal. lia.
Qed.

Lemma ring_write_general (alloc_ok : Z -> bool) (r : RingBuffer)
      (p : list byte) :
  ringMode r = true -> len (buf r) = maxSize r ->
  0 <= pos r < maxSize r -> 0 < len p <= maxSize r ->
  exists r',
    Write alloc_ok r p = Ret (r', len p, None) /\
    len (buf r') = maxSize r /\
    let k := Z.min (len p) (maxSize r - pos r) in
    (forall j, 0 <= j < k -> at_ (buf r') (pos r + j) = at_ p j) /\
    (forall j, k <= j < len p -> at_ (buf r') (j - k) = at_ p j) /\
    (forall i, 0 <= i < maxSize r ->
               ~ (pos r <= i < pos r + k) -> ~ (i < len p - k) ->
               at_ (buf r') i = at_ (buf r) i) /\
    (maxSize r <= pos r + len p -> pos r' = (pos r + len p) mod maxSize r).
Proof.
  intros Hr Hfull Hpos Hp. unfold Write. rewrite Hr.
  rewrite writeRing_small by lia. rewrite Hfull.
  replace (Z.min (maxSize r - pos r) (len p))
    with (Z.min (len p) (maxSize r - pos r)) by lia.
  set (k := Z.min (len p) (maxSize r - pos r)).
  set (b1 := firstn (Z.to_nat (pos r)) (buf r) ++ firstn (Z.to_nat k) p
               ++ skipn (Z.to_nat (pos r + k)) (buf r)).
  assert (Hk : 0 < k <= len p /\ pos r + k <= maxSize r) by (unfold k; lia).
  assert (Hb1 : len b1 = maxSize r).
  { unfold b1. rewrite !len_app, !len_firstn, len_skipn by lia. lia. }
  assert (Hat : forall i, 0 <= i ->
            at_ b1 i = if (pos r <=? i) && (i <? pos r + k)
                       then at_ p (i - pos r) else at_ (buf r) i).
  { intros i Hi. unfold b1. apply at_copied; lia. }
  eexists. split; [reflexivity | ]. cbn [buf pos].
  destruct (Z.gtb_spec (len p) k) as [Hwrap | Hflat].
  - (* the input passes the end of the storage *)
    assert (Ek : k = maxSize r - pos r) by (unfold k; lia).
    assert (Hat' : forall i, 0 <= i ->
              at_ (skipn (Z.to_nat k) p ++ skipn (Z.to_nat (len p - k)) b1) i =
              if i <? len p - k then at_ p (k + i) else at_ b1 i).
    { intros i Hi. rewrite at_app, len_skipn by lia.
      destruct (Z.ltb_spec i (len p - k)).
      - apply at_skipn; lia.
      - rewrite at_skipn by lia. f_equal. lia. }
    split; [rewrite len_app, !len_skipn by lia; lia | ].
    split; [ | split; [ | split]].
    + intros j Hj. rewrite Hat' by lia.
      destruct (Z.ltb_spec (pos r + j) (len p - k)); [lia | ].
      rewrite Hat by lia.
      destruct (Z.leb_spec (pos r) (pos r + j)),
               (Z.ltb_spec (pos r + j) (pos r + k)); try lia.
      cbn [andb]. f_equal. lia.
    + intros j Hj. rewrite Hat' by lia.
      destruct (Z.ltb_spec (j - k) (len p - k)); [ | lia]. f_equal. lia.
    + intros i Hi Hout1 Hout2. rewrite Hat' by lia.
      destruct (Z.ltb_spec i (len p - k)); [lia | ]. rewrite Hat by lia.
      destruct (Z.leb_spec (pos r) i), (Z.ltb_spec i (pos r + k));
        cbn [andb]; try reflexivity; lia.
    + intros _. apply Z.mod_unique with (q := 1); lia.
  - (* the input ends inside the storage or right at its end *)
    assert (Ek : k = len p) by lia.
    split; [exact Hb1 | ]. split; [ | split; [ | split]].
    + intros j Hj. rewrite Hat by lia.
      destruct (Z.leb_spec (pos r) (pos r + j)),
               (Z.ltb_spec (pos r + j) (pos r + k)); try lia.
      cbn [andb]. f_equal. lia.
    + intros j Hj. lia.
    + intros i Hi Hout1 _. rewrite Hat by lia.
      destruct (Z.leb_spec (pos r) i), (Z.ltb_spec i (pos r + k));
        cbn [andb]; try reflexivity; lia.
    + intros Hend. apply Z.mod_unique with (q := 1); lia.
Qed.

(** C2 at a failing input: a buffer with limit 7 is written "__cde" and
    "fgab", which leaves it in ring mode with storage "abcdefg" and cursor
    2; writing "123" then puts the bytes in place, storage "ab123fg", but
    leaves the cursor at 0 and not at [(2 + 3) mod 7 = 5], so that [Bytes]
    returns the storage unrotated. *)
Theorem ring_cursor_not_advanced :
  exists r0 r,
    NewRingBuffer always 0 7 = Ret r0 /\
    writeAll always r0 [bytes_of "__cde"; bytes_of "fgab"]
      = Some (mkRingBuffer (bytes_of "abcdefg") 2 9 true 7, [5; 4]) /\
    Write always (mkRingBuffer (bytes_of "abcdefg") 2 9 true 7)
      (bytes_of "123") = Ret (r, 3, None) /\
    buf r = bytes_of "ab123fg" /\
    pos r = 0 /\
    pos r <> (2 + 3) mod 7 /\
    Bytes r = Ret (bytes_of "ab123fg").
Proof.
  eexists. eexists. split; [reflexivity | ].
  split; [vm_compute; reflexivity | ].
  split; [vm_compute; reflexivity | ].
  split; [reflexivity | ]. split; [reflexivity | ].
  split; [vm_compute; discriminate | reflexivity].
Qed.

(** ** Contents in ring mode *)

(** In ring mode [Bytes] returns as many bytes as the limit. *)
Lemma ring_bytes_length (alloc_ok : Z -> bool) (i M : Z) (r0 r : RingBuffer)
      (ops : list op) :
  GoInt.is_int M ->
  NewRingBuffer alloc_ok i M = Ret r0 ->
  run alloc_ok r0 ops = Ret r ->
  ringMode r = true ->
  exists l, Bytes r = Ret l /\ len l = M.
Proof.
  intros HM H R Hr. apply NewRingBuffer_wf in H as [Hwf HM0]; [ | apply HM].
  destruct (run_wf alloc_ok ops r0 r R Hwf) as [(Hpos & _ & _ & Hfull) HM'].
  unfold Bytes. rewrite Hr, from_ok, upto_ok by assumption. cbn [bind].
  eexists. split; [reflexivity | ].
  rewrite len_app, len_firstn, len_skipn by assumption.
  rewrite (Hfull Hr). lia.
Qed.

(** C1 at a failing input: with limit 3, after writing "abc" and then "d"
    the buffer is in ring mode and [Bytes] returns "dbc", not the last
    three bytes "bcd" of what was written. *)
Theorem ring_content_not_last_bytes :
  exists r0 r,
    NewRingBuffer always 0 3 = Ret r0 /\
    writeAll always r0 [bytes_of "abc"; bytes_of "d"] = Some (r, [3; 1]) /\
    ringMode r = true /\
    Bytes r = Ret (bytes_of "dbc") /\
    Bytes r <> Ret (bytes_of "bcd").
Proof.
  eexists. eexists. split; [reflexivity | ].
  split; [vm_compute; reflexivity | ].
  split; [reflexivity | ]. split; [reflexivity | ].
  vm_compute. discriminate.
Qed.

(** ** The walk-through of the documentation *)

(** C8, as the code has it: with [NewRingBuffer 0 21], after writing the decimal
    strings "0" to "19" one at a time [Written] is 30 and [Cap] is 21; 28
    is the value of [Written] after the first 19 of these writes. *)
Theorem walkthrough_counts :
  exists r0 r19 r20 ns19 ns20,
    NewRingBuffer always 0 21 = Ret r0 /\
    writeAll always r0 (map decimal (seq 0 19)) = Some (r19, ns19) /\
    writeAll always r0 (map decimal (seq 0 20)) = Some (r20, ns20) /\
    Written r19 = 28 /\ Written r20 = 30 /\ Cap r20 = 21.
Proof.
  do 5 eexists. split; [reflexivity | ].
  split; [vm_compute; reflexivity | ].
  split; [vm_compute; reflexivity | ].
  repeat split.
Qed.

(** C8, the count as first stated: after the 20 writes [Written] is not
    28. *)
Lemma walkthrough_written_differs :
  exists r0 r ns,
    NewRingBuffer always 0 21 = Ret r0 /\
    writeAll always r0 (map decimal (seq 0 20)) = Some (r, ns) /\
    Written r <> 28.
Proof.
  do 3 eexists. split; [reflexivity | ].
  split; [vm_compute; reflexivity | ]. vm_compute. discriminate.
Qed.

(** The contents after the walk-through, next to the last 21 characters
    of the digits written. *)
Lemma walkthrough_bytes :
  exists r0 r ns,
    NewRingBuffer always 0 21 = Ret r0 /\
    writeAll always r0 (map decimal (seq 0 20)) = Some (r, ns) /\
    Bytes r = Ret (bytes_of "196345678910111213141") /\
    skipn 9 (concat (map decimal (seq 0 20)))
      = bytes_of "910111213141516171819".
Proof.
  do 3 eexists. split; [reflexivity | ].
  split; [vm_compute; reflexivity | ]. split; reflexivity.
Qed.

(** * Further properties of the methods *)

(** ** Calls return *)

Lemma Grow_returns (alloc_ok : Z -> bool) (r : RingBuffer) (size : Z) :
  size <= 2 ^ 62 -> exists r' e, Grow alloc_ok r size = Ret (r', e).
Proof.
  intros H. destruct (growSize_small r size H) as [n Hn].
  unfold Grow. rewrite Hn.
  destruct (makeSlice alloc_ok n) as [b [e|]]; eauto.
Qed.

Lemma Bytes_returns (r : RingBuffer) :
  0 <= pos r <= len (buf r) -> exists l, Bytes r = Ret l.
Proof.
  intros H. unfold Bytes. rewrite from_ok, upto_ok by assumption.
  destruct (ringMode r); cbn [bind]; eauto.
Qed.

Lemma Write_returns (alloc_ok : Z -> bool) (r : RingBuffer) (p : list byte) :
  wf r -> maxSize r + len p <= 2 ^ 62 ->
  exists r' n e, Write alloc_ok r p = Ret (r', n, e).
Proof.
  intros Hwf Hb. pose proof Hwf as (Hpos & Hcap & HM & _).
  pose proof (len_nonneg p) as Hlp. unfold Write.
  destruct (ringMode r) eqn:Er.
  { destruct (writeRing_ok r p Hpos) as (b & c & W & _). eauto. }
  assert (Hadd : GoInt.add (pos r) (len p) = pos r + len p)
    by (apply add_id; int_range).
  destruct (Z.ltb_spec (len (buf r)) (pos r + len p)) as [Hlt | Hge].
  - destruct (Grow_returns alloc_ok r (pos r + len p)) as (r1 & e & G);
      [lia | ].
    destruct e as [e|].
    + unfold write. rewrite Hadd.
      destruct (Z.ltb_spec (len (buf r)) (pos r + len p)); [ | lia].
      rewrite G. cbn [bind]. eauto.
    + assert (Hg : grown alloc_ok r r1 (pos r + len p)) by (right; auto).
      destruct (grown_wf alloc_ok r r1 _ Hwf Hg)
        as ((Hpos1 & _) & Hp1 & _).
      assert (G' : (if len (buf r) <? GoInt.add (pos r) (len p)
                    then Grow alloc_ok r (GoInt.add (pos r) (len p))
                    else Ret (r, None)) = Ret (r1, None)).
      { rewrite Hadd.
        destruct (Z.ltb_spec (len (buf r)) (pos r + len p)); [exact G | lia]. }
      destruct (Z.le_gt_cases (pos r + len p) (len (buf r1))) as [Hfit | Hno].
      * destruct (write_fits alloc_ok r r1 p G' Hp1) as (b & _ & W);
          try lia; eauto.
      * rewrite (write_overflows alloc_ok r r1 p G' Hp1) by lia.
        destruct (writeRing_ok (set_ringMode r1 true) p) as (b & c & W & _);
          [exact Hpos1 | eauto].
  - assert (G' : (if len (buf r) <? GoInt.add (pos r) (len p)
                  then Grow alloc_ok r (GoInt.add (pos r) (len p))
                  else Ret (r, None)) = Ret (r, None)).
    { rewrite Hadd.
      destruct (Z.ltb_spec (len (buf r)) (pos r + len p)); [lia | reflexivity]. }
    destruct (write_fits alloc_ok r r p G' eq_refl) as (b & _ & W);
      try lia; eauto.
Qed.

Lemma Grow_no_panic (alloc_ok : Z -> bool) (r : RingBuffer) (size : Z) :
  Grow alloc_ok r size <> Panic.
Proof.
  unfold Grow. destruct (growSize r size) as [n|]; [ | discriminate].
  destruct (makeSlice alloc_ok n) as [b [e|]]; discriminate.
Qed.

(** Whatever the length of the input. *)
Lemma Write_no_panic (alloc_ok : Z -> bool) (r : RingBuffer) (p : list byte) :
  wf r -> Write alloc_ok r p <> Panic.
Proof.
  intros Hwf. pose proof Hwf as (Hpos & _). unfold Write.
  destruct (ringMode r) eqn:Er.
  { destruct (writeRing_ok r p Hpos) as (b & c & -> & _). discriminate. }
  unfold write. set (size := GoInt.add (pos r) (len p)).
  assert (G : exists r1,
             wf r1 /\ pos r1 = pos r /\
             forall k : RingBuffer * option error
                        -> outcome (RingBuffer * Z * option error),
               (forall e, k (r, Some e) <> Panic) ->
               k (r1, None) <> Panic ->
               bind (if len (buf r) <? size then Grow alloc_ok r size
                     else Ret (r, None)) k <> Panic).
  { destruct (Z.ltb_spec (len (buf r)) size) as [Hlt | Hge].
    - destruct (Grow alloc_ok r size) as [[r1 [e|]]| |] eqn:E.
      + exists r. split; [exact Hwf | ]. split; [reflexivity | ].
        intros k He _. cbn [bind].
        apply Grow_ret in E as [[_ ->] | [? _]]; [apply He | discriminate].
      + exists r1. destruct (Grow_wf alloc_ok r r1 size None E Hwf) as [H1 _].
        apply Grow_ok in E as (m & _ & _ & Hp & _).
        split; [exact H1 | ]. split; [exact Hp | ].
        intros k _ Hk. cbn [bind]. exact Hk.
      + exfalso. exact (Grow_no_panic alloc_ok r size E).
      + exists r. split; [exact Hwf | ]. split; [reflexivity | ].
        intros k _ _. cbn [bind]. discriminate.
    - exists r. split; [exact Hwf | ]. split; [reflexivity | ].
      intros k _ Hk. cbn [bind]. exact Hk. }
  destruct G as (r1 & (Hpos1 & _) & Hp1 & G). apply G.
  - intros e. discriminate.
  - destruct (len (buf r1) >=? GoInt.add (pos r1) (len p)).
    + rewrite copy_at_ok by assumption. cbn [bind]. discriminate.
    + destruct (writeRing_ok (set_ringMode r1 true) p) as (b & c & -> & _);
        [exact Hpos1 | discriminate].
Qed.

(** X1: on a buffer reached from construction, no call of [Write], [Grow],
    [Bytes] or [Reset] panics, whatever its argument, and every call whose
    sizes stay within [2^62] returns. *)
Theorem calls_return (alloc_ok : Z -> bool) (r : RingBuffer) (o : op) :
  reachable alloc_ok r ->
  step alloc_ok r o <> Panic /\
  (small_op r o -> exists r', step alloc_ok r o = Ret r').
Proof.
  intros Hr. apply reachable_wf in Hr. split.
  - destruct o as [p | size | | ]; cbn [step].
    + pose proof (Write_no_panic alloc_ok r p Hr) as H.
      destruct (Write alloc_ok r p); cbn [bind]; congruence.
    + pose proof (Grow_no_panic alloc_ok r size) as H.
      destruct (Grow alloc_ok r size); cbn [bind]; congruence.
    + destruct (Bytes_returns r) as [l ->]; [apply Hr | discriminate].
    + discriminate.
  - intros Hs. destruct o as [p | size | | ]; cbn [step small_op] in *.
    + destruct (Write_returns alloc_ok r p Hr Hs) as (r' & n & e & ->).
      cbn. eauto.
    + destruct (Grow_returns alloc_ok r size Hs) as (r' & e & ->). cbn. eauto.
    + destruct (Bytes_returns r) as [l ->]; [apply Hr | cbn; eauto].
    + eauto.
Qed.

Lemma calls_return_witness :
  step always (mkRingBuffer (repeat x00 3) 0 0 false 7)
    (OpWrite (bytes_of "abcdefghijk")) <> Panic /\
  exists r',
    step always (mkRingBuffer (repeat x00 3) 0 0 false 7)
      (OpWrite (bytes_of "abcdefghijk")) = Ret r'.
Proof.
  destruct (calls_return always (mkRingBuffer (repeat x00 3) 0 0 false 7)
              (OpWrite (bytes_of "abcdefghijk"))) as [Hnp Hret].
  - apply (reach_new always 3 7); [int_range | reflexivity].
  - split; [exact Hnp | ]. apply Hret. vm_compute. discriminate.
Defined.

(** ** The mode and the limit *)

(** X2: no call of [Write], [Grow], [Bytes] or [Reset] changes the limit,
    and only [Reset] takes a buffer out of ring mode. *)
Theorem mode_is_one_way (alloc_ok : Z -> bool) (r r' : RingBuffer) (o : op) :
  step alloc_ok r o = Ret r' ->
  maxSize r' = maxSize r /\
  (o <> OpReset -> ringMode r = true -> ringMode r' = true).
Proof.
  destruct o as [p | size | | ]; cbn [step].
  - destruct (Write alloc_ok r p) as [[[r1 n] e]| |] eqn:W; try discriminate.
    cbn. intros [= <-]. unfold Write in W. destruct (ringMode r) eqn:Er.
    + apply writeRing_ret in W as (_ & _ & HM & Ht & _). split; congruence.
    + split; [ | discriminate].
      apply write_ret in W as [(_ & _ & -> & _) | (r2 & Hg & W)];
        [reflexivity | ].
      assert (HM2 : maxSize r2 = maxSize r).
      { destruct Hg as [[_ ->] | [_ G]]; [reflexivity | ].
        apply Grow_ok in G as (m & _ & _ & _ & _ & _ & HM & _). exact HM. }
      destruct W as [(_ & _ & b & _ & ->) | (_ & W)].
      * destruct (copied_fields r2 b n) as (_ & -> & _). exact HM2.
      * apply writeRing_ret in W as (_ & _ & HM & _).
        cbn [set_ringMode maxSize] in HM. congruence.
  - destruct (Grow alloc_ok r size) as [[r1 e]| |] eqn:G; try discriminate.
    cbn. intros [= <-].
    apply Grow_ret in G as [[_ ->] | (_ & n & _ & _ & _ & ->)]; auto.
  - destruct (Bytes r); cbn; try discriminate. intros [= <-]. auto.
  - intros [= <-]. split; [reflexivity | congruence].
Qed.

Lemma mode_is_one_way_witness :
  maxSize (mkRingBuffer (bytes_of "abcdefg") 2 9 true 7) = 7 /\
  (OpGrow 100 <> OpReset ->
   true = true ->
   ringMode (mkRingBuffer (bytes_of "abcdefg") 2 9 true 7) = true).
Proof.
  apply (mode_is_one_way always
           (mkRingBuffer (bytes_of "abcdefg") 2 9 true 7)
           (mkRingBuffer (bytes_of "abcdefg") 2 9 true 7)
           (OpGrow 100)).
  vm_compute. reflexivity.
Defined.

(** ** Growing by hand *)

Lemma Z_to_nat_sub_len (n : Z) (s : list byte) :
  (Z.to_nat n - length s)%nat = Z.to_nat (n - len s).
Proof. unfold len. lia. Qed.

Lemma Grow_contents (alloc_ok : Z -> bool) (r r' : RingBuffer) (size : Z) :
  wf r -> Grow alloc_ok r size = Ret (r', None) ->
  buf r' = buf r ++ repeat x00 (Z.to_nat (Cap r' - Cap r)) /\
  Cap r <= Cap r' <= maxSize r /\
  (Cap r' = maxSize r \/ size <= Cap r') /\
  (ringMode r = true -> Cap r' = Cap r) /\
  pos r' = pos r /\ written r' = written r /\ ringMode r' = ringMode r.
Proof.
  intros (Hpos & Hcap & HM & Hring) G.
  apply Grow_ok in G as (n & Hn & Hl & Hp & Hw & Hr & _ & Hb).
  apply growSize_spec in Hn. unfold Cap. rewrite Hl.
  assert (Hle : len (buf r) <= n) by lia.
  rewrite (Hb Hle), Z_to_nat_sub_len.
  repeat split; try assumption; try lia.
  intros Ht. specialize (Hring Ht). lia.
Qed.

(** X3: a successful [Grow] on a buffer of the data model keeps all bytes
    of the storage in place and puts zero bytes behind them; [Bytes],
    [Written], the cursor and the mode are as before. *)
Theorem Grow_keeps_contents (alloc_ok : Z -> bool) (r r' : RingBuffer)
        (size : Z) :
  wf r -> Grow alloc_ok r size = Ret (r', None) ->
  buf r' = buf r ++ repeat x00 (Z.to_nat (Cap r' - Cap r)) /\
  Bytes r' = Bytes r /\ Written r' = Written r /\
  pos r' = pos r /\ ringMode r' = ringMode r.
Proof.
  intros Hwf G. pose proof Hwf as (Hpos & _).
  destruct (Grow_contents alloc_ok r r' size Hwf G)
    as (Hb & Hc & _ & Hring & Hp & Hw & Hr).
  split; [exact Hb | ]. split; [ | auto].
  unfold Bytes. rewrite Hr, Hp. destruct (ringMode r) eqn:Er.
  - rewrite Hb, (Hring eq_refl), Z.sub_diag. cbn [Z.to_nat repeat].
    rewrite app_nil_r. reflexivity.
  - unfold Cap in Hc. rewrite !upto_ok by lia. f_equal.
    rewrite Hb. apply firstn_front. unfold len in Hpos. lia.
Qed.

Lemma Grow_keeps_contents_witness :
  Grow always (mkRingBuffer (bytes_of "abc") 2 2 false 7) 5
    = Ret (mkRingBuffer (bytes_of "abc" ++ repeat x00 3) 2 2 false 7, None) /\
  Bytes (mkRingBuffer (bytes_of "abc" ++ repeat x00 3) 2 2 false 7)
    = Bytes (mkRingBuffer (bytes_of "abc") 2 2 false 7).
Proof.
  assert (G : Grow always (mkRingBuffer (bytes_of "abc") 2 2 false 7) 5
              = Ret (mkRingBuffer (bytes_of "abc" ++ repeat x00 3) 2 2 false 7,
                     None))
    by (vm_compute; reflexivity).
  split; [exact G | ].
  apply (Grow_keeps_contents always
           (mkRingBuffer (bytes_of "abc") 2 2 false 7)
           (mkRingBuffer (bytes_of "abc" ++ repeat x00 3) 2 2 false 7) 5);
    [ | exact G].
  unfold wf. cbn. repeat split; try lia; discriminate.
Defined.

(** X4: a successful [Grow] never shrinks the storage and never passes the
    limit, the storage afterwards holds [size] bytes or is at the limit,
    and a [size] that the storage (counted as 1 when empty) already covers
    gives a storage of that length cut at the limit, so that an empty
    buffer gets one byte even for a [size] of zero or less. *)
Theorem Grow_capacity (alloc_ok : Z -> bool) (r r' : RingBuffer) (size : Z) :
  wf r -> Grow alloc_ok r size = Ret (r', None) ->
  Cap r <= Cap r' <= maxSize r /\
  Z.min size (maxSize r) <= Cap r' /\
  (size <= Z.max (Cap r) 1 -> Cap r' = Z.min (Z.max (Cap r) 1) (maxSize r)).
Proof.
  intros Hwf G.
  destruct (Grow_contents alloc_ok r r' size Hwf G) as (_ & Hc & Hs & _).
  split; [exact Hc | ]. split; [lia | ]. intros Hsmall.
  apply Grow_ok in G as (n & Hn & Hl & _). unfold Cap in *. rewrite Hl.
  pose proof (len_nonneg (buf r)) as H0.
  unfold growSize, growFuel in Hn. cbn [growLoop] in Hn.
  destruct (Z.eqb_spec (len (buf r)) 0) as [E | E].
  - rewrite E in *. destruct (Z.ltb_spec 1 size); [lia | ].
    injection Hn as <-. destruct (Z.geb_spec 1 (maxSize r)); lia.
  - destruct (Z.ltb_spec (len (buf r)) size); [lia | ].
    injection Hn as <-.
    destruct (Z.geb_spec (len (buf r)) (maxSize r)); lia.
Qed.

Lemma Grow_capacity_witness :
  Grow always (mkRingBuffer [] 0 0 false 7) (-3)
    = Ret (mkRingBuffer [x00] 0 0 false 7, None) /\
  Cap (mkRingBuffer [x00] 0 0 false 7) = 1.
Proof.
  assert (G : Grow always (mkRingBuffer [] 0 0 false 7) (-3)
              = Ret (mkRingBuffer [x00] 0 0 false 7, None))
    by (vm_compute; reflexivity).
  split; [exact G | ].
  apply (Grow_capacity always (mkRingBuffer [] 0 0 false 7)
           (mkRingBuffer [x00] 0 0 false 7) (-3)); [ | exact G | ].
  - unfold wf. cbn. repeat split; try lia; discriminate.
  - vm_compute. discriminate.
Defined.

(** ** Writing into room that is there *)

Lemma write_room (r : RingBuffer) (p : list byte) :
  wf r -> ringMode r = false -> pos r + len p <= Cap r ->
  exists r',
    (forall alloc_ok, Write alloc_ok r p = Ret (r', len p, None)) /\
    Cap r' = Cap r /\
    written r' = GoInt.add (written r) (len p) /\
    Bytes r' = Ret (firstn (Z.to_nat (pos r)) (buf r) ++ p) /\
    (ringMode r' = true \/ pos r' = pos r + len p).
Proof.
  intros (Hpos & Hcap & HM & _) Hr Hroom. unfold Cap in *.
  pose proof (len_nonneg p) as Hlp.
  assert (Hadd : GoInt.add (pos r) (len p) = pos r + len p)
    by (apply add_id; int_range).
  set (b := firstn (Z.to_nat (pos r)) (buf r) ++ p
              ++ skipn (Z.to_nat (pos r + len p)) (buf r)).
  assert (Hb : len b = len (buf r)).
  { unfold b. rewrite !len_app, len_firstn, len_skipn by lia. lia. }
  exists (copied r b (len p)).
  destruct (copied_fields r b (len p)) as (Eb & EM & Ew & Hmode).
  split; [ | split; [ | split; [ | split]]].
  - intros alloc_ok. unfold Write. rewrite Hr. unfold write. rewrite Hadd.
    destruct (Z.ltb_spec (len (buf r)) (pos r + len p)); [lia | ].
    cbn [bind]. rewrite Hadd.
    destruct (Z.geb_spec (len (buf r)) (pos r + len p)); [ | lia].
    rewrite copy_at_ok by lia. cbn [bind].
    replace (Z.min (len (buf r) - pos r) (len p)) with (len p) by lia.
    rewrite firstn_all2 with (l := p) by (unfold len; lia).
    reflexivity.
  - rewrite Eb. exact Hb.
  - exact Ew.
  - unfold Bytes. rewrite Hadd in Hmode.
    destruct Hmode as [(Hfull & -> & ->) | (_ & -> & ->)].
    + rewrite Eb, from_ok, upto_ok by lia. cbn [bind Z.to_nat skipn firstn].
      rewrite app_nil_r. unfold b.
      rewrite skipn_all2 by (unfold len in *; lia).
      rewrite app_nil_r. reflexivity.
    + rewrite Hr, Eb, upto_ok by lia. f_equal. unfold b.
      apply firstn_two. rewrite length_firstn. unfold len in *. lia.
  - rewrite Hadd in Hmode. destruct Hmode as [(_ & Ht & _) | (_ & _ & Ep)];
      [left; exact Ht | right; exact Ep].
Qed.

(** X5: in growing mode a [Write] that finds room for its input behind the
    cursor never asks the allocator: for every allocator it returns the
    length of the input and no error, the storage keeps its length, and
    [Bytes] afterwards is the old contents followed by the input. *)
Theorem write_without_growth (r : RingBuffer) (p : list byte) :
  wf r -> ringMode r = false -> pos r + len p <= Cap r ->
  exists r',
    (forall alloc_ok, Write alloc_ok r p = Ret (r', len p, None)) /\
    Cap r' = Cap r /\
    Bytes r' = Ret (firstn (Z.to_nat (pos r)) (buf r) ++ p).
Proof.
  intros Hwf Hr Hroom.
  destruct (write_room r p Hwf Hr Hroom) as (r' & W & Hc & _ & HB & _).
  exists r'. auto.
Qed.

Lemma write_without_growth_witness :
  exists r',
    (forall alloc_ok,
        Write alloc_ok (mkRingBuffer (bytes_of "ab" ++ repeat x00 4) 2 2 false 7)
          (bytes_of "cde") = Ret (r', 3, None)) /\
    Cap r' = 6 /\
    Bytes r' = Ret (bytes_of "abcde").
Proof.
  apply (write_without_growth
           (mkRingBuffer (bytes_of "ab" ++ repeat x00 4) 2 2 false 7)
           (bytes_of "cde")).
  - unfold wf. cbn. repeat split; try lia; discriminate.
  - reflexivity.
  - vm_compute. discriminate.
Defined.

(** X6: in growing mode a [Write] of an empty or nil input returns zero and
    no error for every allocator and leaves [Cap], [Written] and [Bytes] as
    they were. *)
Theorem empty_write_is_neutral (r : RingBuffer) :
  wf r -> ringMode r = false -> GoInt.is_int (written r) ->
  exists r',
    (forall alloc_ok, Write alloc_ok r [] = Ret (r', 0, None)) /\
    Cap r' = Cap r /\ Written r' = Written r /\ Bytes r' = Bytes r.
Proof.
  intros Hwf Hr Hw. pose proof Hwf as (Hpos & _).
  destruct (write_room r [] Hwf Hr) as (r' & W & Hc & Hw' & HB & _).
  { unfold Cap. change (len []) with 0. lia. }
  exists r'. split; [exact W | ]. split; [exact Hc | ].
  unfold Written, Bytes at 2. rewrite Hw', HB, Hr, app_nil_r, upto_ok
    by assumption.
  split; [ | reflexivity]. change (len []) with 0.
  rewrite add_id by (rewrite Z.add_0_r; exact Hw). apply Z.add_0_r.
Qed.

Lemma empty_write_is_neutral_witness :
  exists r',
    (forall alloc_ok,
        Write alloc_ok (mkRingBuffer (bytes_of "abc") 2 2 false 7) []
          = Ret (r', 0, None)) /\
    Cap r' = Cap (mkRingBuffer (bytes_of "abc") 2 2 false 7) /\
    Written r' = Written (mkRingBuffer (bytes_of "abc") 2 2 false 7) /\
    Bytes r' = Bytes (mkRingBuffer (bytes_of "abc") 2 2 false 7).
Proof.
  apply (empty_write_is_neutral (mkRingBuffer (bytes_of "abc") 2 2 false 7)).
  - unfold wf. cbn. repeat split; try lia; discriminate.
  - reflexivity.
  - vm_compute. split; discriminate.
Defined.

(** ** Writes that reach the end of the storage *)

Lemma skipn_app_le (a b : list byte) (n : nat) :
  (n <= length a)%nat -> skipn n (a ++ b) = skipn n a ++ b.
Proof.
  intros H. rewrite skipn_app.
  replace (n - length a)%nat with 0%nat by lia. reflexivity.
Qed.

Lemma skipn_app_ge (a b : list byte) (n : nat) :
  (length a <= n)%nat -> skipn n (a ++ b) = skipn (n - length a) b.
Proof.
  intros H. rewrite skipn_app, skipn_all2 by assumption. reflexivity.
Qed.

Lemma firstn_app_exact (a b : list byte) (n : nat) :
  n = length a -> firstn n (a ++ b) = a.
Proof.
  intros ->. rewrite firstn_app, firstn_all, Nat.sub_diag, firstn_O.
  apply app_nil_r.
Qed.

(** The bytes from the cursor to the end followed by the bytes before the
    cursor, which is what [Bytes] returns in ring mode. *)
Lemma Bytes_ring (r : RingBuffer) :
  ringMode r = true -> 0 <= pos r <= len (buf r) ->
  Bytes r = Ret (skipn (Z.to_nat (pos r)) (buf r)
                   ++ firstn (Z.to_nat (pos r)) (buf r)).
Proof.
  intros Hr Hpos. unfold Bytes.
  rewrite Hr, from_ok, upto_ok by assumption. reflexivity.
Qed.

Lemma writeRing_past_end (r : RingBuffer) (p : list byte) :
  0 <= pos r <= len (buf r) -> len (buf r) <= pos r + len p ->
  exists r',
    writeRing r p = Ret (r', len p, None) /\
    ringMode r' = ringMode r /\ maxSize r' = maxSize r /\
    len (buf r') = len (buf r) /\ 0 <= pos r' <= len (buf r') /\
    skipn (Z.to_nat (pos r')) (buf r') ++ firstn (Z.to_nat (pos r')) (buf r')
    = lastn (len (buf r))
        ((skipn (Z.to_nat (pos r)) (buf r)
            ++ firstn (Z.to_nat (pos r)) (buf r)) ++ p).
Proof.
  intros Hpos Hend. pose proof (len_nonneg p) as Hlp.
  set (M := len (buf r)) in *. set (c := pos r) in *.
  assert (HlenO : length (skipn (Z.to_nat c) (buf r)
                            ++ firstn (Z.to_nat c) (buf r)) = Z.to_nat M).
  { rewrite length_app, length_skipn, length_firstn.
    unfold M, len in *. lia. }
  assert (Hlast : lastn M ((skipn (Z.to_nat c) (buf r)
                              ++ firstn (Z.to_nat c) (buf r)) ++ p)
                  = skipn (Z.to_nat (len p - (M - c)))
                      (firstn (Z.to_nat c) (buf r) ++ p)).
  { unfold lastn. rewrite len_app. unfold len at 1. rewrite HlenO.
    rewrite <- app_assoc.
    rewrite skipn_app_ge by (rewrite length_skipn; unfold M, len in *; lia).
    f_equal. rewrite length_skipn. unfold M, len in *. lia. }
  rewrite Hlast. clear Hlast HlenO.
  destruct (Z.lt_ge_cases M (len p)) as [Hbig | Hsmall].
  - (* longer than the storage *)
    rewrite writeRing_big by assumption. eexists. split; [reflexivity | ].
    cbn [buf pos ringMode maxSize Z.to_nat skipn firstn]. fold M.
    rewrite app_nil_r, len_skipn by lia.
    repeat split; try lia.
    rewrite skipn_app_ge by (rewrite length_firstn; unfold M, len in *; lia).
    f_equal. rewrite length_firstn. unfold M, len in *. lia.
  - rewrite writeRing_small by assumption. fold M. fold c.
    replace (Z.min (M - c) (len p)) with (M - c) by lia.
    replace (c + (M - c)) with M by lia.
    assert (Ht : skipn (Z.to_nat M) (buf r) = [])
      by (apply skipn_all2; unfold M, len; lia).
    rewrite Ht, app_nil_r.
    assert (Hfc : length (firstn (Z.to_nat c) (buf r)) = Z.to_nat c)
      by (rewrite length_firstn; unfold M, len in *; lia).
    assert (Hfk : length (firstn (Z.to_nat (M - c)) p) = Z.to_nat (M - c))
      by (rewrite length_firstn; unfold len in *; lia).
    eexists. split; [reflexivity | ]. cbn [buf pos ringMode maxSize].
    destruct (Z.gtb_spec (len p) (M - c)) as [Hwrap | Hflat].
    + (* the input passes the end *)
      assert (Hsk : length (skipn (Z.to_nat (M - c)) p)
                    = Z.to_nat (len p - (M - c)))
        by (rewrite length_skipn; unfold len in *; lia).
      split; [reflexivity | ]. split; [reflexivity | ].
      split.
      { rewrite len_app, !len_skipn; rewrite ?len_app, ?len_firstn; lia. }
      split.
      { rewrite len_app, !len_skipn; rewrite ?len_app, ?len_firstn; lia. }
      rewrite skipn_app_ge by lia. rewrite Hsk, Nat.sub_diag.
      cbn [skipn]. rewrite firstn_app_exact by (symmetry; exact Hsk).
      rewrite skipn_app_le by lia.
      rewrite skipn_app_le by lia.
      rewrite <- !app_assoc, firstn_skipn. reflexivity.
    + (* the input ends at the end *)
      assert (Ek : M - c = len p) by lia.
      split; [reflexivity | ]. split; [reflexivity | ].
      split; [rewrite len_app, !len_firstn; lia | ].
      split; [rewrite len_app, !len_firstn; lia | ].
      cbn [Z.to_nat skipn firstn]. rewrite app_nil_r. rewrite Ek, Z.sub_diag.
      cbn [Z.to_nat skipn].
      rewrite firstn_all2 with (l := p) by (unfold len; lia). reflexivity.
Qed.

(** X7: in ring mode a [Write] that reaches or passes the end of the
    storage, so also every input of at least the length of the limit,
    returns the length of its input for every allocator, and [Bytes]
    afterwards is the last [maxSize] bytes of the old [Bytes] followed by
    the input. *)
Theorem ring_write_past_end_keeps_last (r : RingBuffer) (p : list byte) :
  ringMode r = true -> len (buf r) = maxSize r ->
  0 <= pos r <= maxSize r -> maxSize r <= pos r + len p ->
  exists old r',
    Bytes r = Ret old /\
    (forall alloc_ok, Write alloc_ok r p = Ret (r', len p, None)) /\
    Bytes r' = Ret (lastn (maxSize r) (old ++ p)).
Proof.
  intros Hr Hfull Hpos Hend. rewrite <- Hfull in *.
  destruct (writeRing_past_end r p Hpos Hend)
    as (r' & W & Hr' & _ & _ & Hpos' & Hrot).
  eexists. exists r'. split; [apply Bytes_ring; assumption | ].
  split.
  - intros alloc_ok. unfold Write. rewrite Hr. exact W.
  - rewrite Bytes_ring by (try assumption; congruence).
    rewrite Hrot. reflexivity.
Qed.

Lemma ring_write_past_end_keeps_last_witness :
  exists old r',
    Bytes (mkRingBuffer (bytes_of "hbcdefg") 1 8 true 7) = Ret old /\
    (forall alloc_ok,
        Write alloc_ok (mkRingBuffer (bytes_of "hbcdefg") 1 8 true 7)
          (bytes_of "12345678") = Ret (r', 8, None)) /\
    Bytes r' = Ret (lastn 7 (old ++ bytes_of "12345678")).
Proof.
  apply (ring_write_past_end_keeps_last
           (mkRingBuffer (bytes_of "hbcdefg") 1 8 true 7)
           (bytes_of "12345678")).
  - reflexivity.
  - reflexivity.
  - vm_compute. split; discriminate.
  - vm_compute. discriminate.
Defined.

(** The write that takes a growing buffer into ring mode. *)
Lemma write_turn (alloc_ok : Z -> bool) (r r' : RingBuffer) (p : list byte)
      (n : Z) :
  wf r -> ringMode r = false -> maxSize r + len p <= GoInt.maxInt ->
  Write alloc_ok r p = Ret (r', n, None) -> ringMode r' = true ->
  Bytes r' = Ret (lastn (maxSize r) (firstn (Z.to_nat (pos r)) (buf r) ++ p)).
Proof.
  intros Hwf Hr Hbound W Hr'. unfold Write in W. rewrite Hr in W.
  pose proof (len_nonneg p) as Hlp.
  pose proof Hwf as (Hpos & Hcap & HM & _).
  assert (Hsize : GoInt.add (pos r) (len p) = pos r + len p)
    by (apply add_id; int_range).
  apply write_ret in W as [(? & _) | (r1 & Hg & W)]; [discriminate | ].
  rewrite Hsize in *.
  destruct (grown_wf _ _ _ _ Hwf Hg)
    as ((Hpos1 & Hcap1 & HM1 & _) & Hp & Hw & Hr1 & HMeq & Hfull & z & Hz).
  assert (Hpre : firstn (Z.to_nat (pos r)) (buf r1)
                 = firstn (Z.to_nat (pos r)) (buf r)).
  { rewrite Hz. apply firstn_front. unfold len in *. lia. }
  assert (Hlc : length (firstn (Z.to_nat (pos r)) (buf r)) = Z.to_nat (pos r))
    by (rewrite length_firstn; unfold len in *; lia).
  destruct W as [(Hfit & _ & b & C & ->) | (Hno & W)].
  - (* the input fills the storage to the limit *)
    apply copy_at_ret in C as (_ & Hn & Hb & Eb).
    assert (En : n = len p) by lia. clear Hn. subst n.
    destruct (copied_fields r1 b (len p))
      as (Eb' & _ & _ & [(Heq & Et & Ep) | (_ & Et & _)]);
      [ | congruence].
    rewrite Hp, Hsize in Heq.
    rewrite Bytes_ring by (rewrite ?Ep, ?Eb'; try assumption; lia).
    rewrite Ep, Eb'. cbn [Z.to_nat skipn firstn]. rewrite app_nil_r.
    f_equal. rewrite Eb, Hp, Hpre.
    rewrite firstn_all2 with (l := p) by (unfold len; lia).
    rewrite skipn_all2 by (unfold len in *; lia). rewrite app_nil_r.
    unfold lastn. rewrite len_app. unfold len at 1. rewrite Hlc.
    replace (Z.to_nat (Z.of_nat (Z.to_nat (pos r)) + len p - maxSize r))
      with 0%nat by lia.
    reflexivity.
  - (* the input does not fit below the limit *)
    assert (Hl1 : len (buf r1) = maxSize r) by lia.
    destruct (writeRing_past_end (set_ringMode r1 true) p)
      as (r2 & W2 & Hr2 & _ & _ & Hpos2 & Hrot);
      cbn [set_ringMode buf pos ringMode] in *; try lia.
    rewrite W2 in W. injection W as <- _.
    rewrite Bytes_ring by assumption. rewrite Hrot. f_equal.
    rewrite Hp, Hpre, Hl1. unfold lastn.
    rewrite !len_app. unfold len at 1 2 4. rewrite Hlc.
    rewrite length_skipn. rewrite <- app_assoc.
    rewrite skipn_app_ge by (rewrite length_skipn; unfold len in *; lia).
    f_equal. rewrite length_skipn. unfold len in *. lia.
Qed.

(** X8: for a buffer written since its construction or its last [Reset],
    the write that takes it from growing into ring mode, by filling the
    storage exactly to the limit or by not fitting below it, leaves in
    [Bytes] the last [maxSize] bytes of everything written. *)
Theorem turning_write_keeps_last (alloc_ok : Z -> bool) (r0 r1 r2 : RingBuffer)
        (ps : list (list byte)) (ns : list Z) (p : list byte) (n : Z) :
  fresh alloc_ok r0 ->
  Forall (fun q => maxSize r0 + len q <= GoInt.maxInt) (ps ++ [p]) ->
  writeAll alloc_ok r0 ps = Some (r1, ns) ->
  ringMode r1 = false ->
  Write alloc_ok r1 p = Ret (r2, n, None) ->
  ringMode r2 = true ->
  Bytes r2 = Ret (lastn (maxSize r0) (concat ps ++ p)).
Proof.
  intros Hf Hb W1 Hr1 W2 Hr2.
  apply fresh_start in Hf as (Hwf & Hp0 & _ & _).
  apply Forall_app in Hb as [Hps Hp]. inversion Hp as [|? ? Hp' _]; subst.
  destruct (writeAll_content alloc_ok ps r0 r1 ns Hwf Hps W1 Hr1)
    as (Hwf1 & _ & Hc).
  assert (HM : maxSize r1 = maxSize r0).
  { clear - W1 Hwf. revert r0 ns W1 Hwf.
    induction ps as [|q ps IH]; intros r0 ns W1 Hwf.
    - injection W1 as <- _. reflexivity.
    - apply writeAll_cons in W1 as (ra & m & ns' & W & Wr & _).
      destruct (Write_wf _ _ _ _ _ _ W Hwf) as [Hwfa HMa].
      rewrite (IH _ _ Wr Hwfa). exact HMa. }
  rewrite <- HM in *.
  rewrite (write_turn alloc_ok r1 r2 p n Hwf1 Hr1 Hp' W2 Hr2).
  rewrite Hc, Hp0. reflexivity.
Qed.

Lemma turning_write_keeps_last_witness :
  exists r2,
    writeAll always (mkRingBuffer (repeat x00 3) 0 0 false 7)
      [bytes_of "ab"; bytes_of "cde"]
      = Some (mkRingBuffer (bytes_of "abcde" ++ [x00]) 5 5 false 7, [2; 3]) /\
    Write always (mkRingBuffer (bytes_of "abcde" ++ [x00]) 5 5 false 7)
      (bytes_of "fghi") = Ret (r2, 4, None) /\
    Bytes r2 = Ret (bytes_of "cdefghi").
Proof.
  eexists. split; [vm_compute; reflexivity | ].
  split; [vm_compute; reflexivity | ].
  apply (turning_write_keeps_last always
           (mkRingBuffer (repeat x00 3) 0 0 false 7)
           (mkRingBuffer (bytes_of "abcde" ++ [x00]) 5 5 false 7) _
           [bytes_of "ab"; bytes_of "cde"] [2; 3] (bytes_of "fghi") 4).
  - apply (fresh_new always 3 7); [int_range | reflexivity].
  - repeat constructor; vm_compute; discriminate.
  - vm_compute. reflexivity.
  - reflexivity.
  - vm_compute. reflexivity.
  - reflexivity.
Defined.

(** ** A buffer after [Reset] and a new buffer *)

Lemma same_view_refl (a : RingBuffer) : same_view a a.
Proof. unfold same_view. destruct (ringMode a); repeat split. Qed.

Lemma same_view_sym (a b : RingBuffer) : same_view a b -> same_view b a.
Proof.
  unfold same_view. intros (Hp & Hw & Hr & HM & Hl & Hc).
  rewrite <- Hr. destruct (ringMode a); repeat split; auto.
Qed.

Lemma same_view_ring (a b : RingBuffer) :
  same_view a b -> ringMode a = true -> a = b.
Proof.
  unfold same_view. intros (Hp & Hw & Hr & HM & Hl & Hc) Ht.
  rewrite Ht in Hc. destruct a, b. cbn in *. congruence.
Qed.

Lemma same_view_Bytes (a b : RingBuffer) :
  same_view a b -> Bytes a = Bytes b.
Proof.
  intros H. destruct (ringMode a) eqn:Er.
  - rewrite (same_view_ring a b H Er). reflexivity.
  - destruct H as (Hp & _ & Hr & _ & Hl & Hc). rewrite Er in Hc.
    unfold Bytes, upto. rewrite <- Hr, Er, <- Hp, <- Hl, Hp, <- Hc, <- Hp.
    reflexivity.
Qed.

Lemma growSize_ext (a b : RingBuffer) (size : Z) :
  len (buf a) = len (buf b) -> maxSize a = maxSize b ->
  growSize a size = growSize b size.
Proof. intros Hl HM. unfold growSize. rewrite Hl, HM. reflexivity. Qed.

(** In the hand-over from [write] the bytes from the cursor on do not
    matter: the input covers them all. *)
Lemma writeRing_overflow_ext (a b : RingBuffer) (p : list byte) :
  pos a = pos b -> written a = written b -> ringMode a = ringMode b ->
  maxSize a = maxSize b -> len (buf a) = len (buf b) ->
  firstn (Z.to_nat (pos a)) (buf a) = firstn (Z.to_nat (pos b)) (buf b) ->
  0 <= pos a <= len (buf a) -> len (buf a) <= pos a + len p ->
  writeRing a p = writeRing b p.
Proof.
  intros Hp Hw Hr HM Hl Hc Hpos Hend.
  destruct (Z.lt_ge_cases (len (buf a)) (len p)) as [Hbig | Hsmall].
  - rewrite !writeRing_big by lia. rewrite Hl, Hw, Hr, HM. reflexivity.
  - rewrite !writeRing_small by lia.
    rewrite <- Hc, <- Hl, <- Hp, <- Hw, <- Hr, <- HM.
    replace (Z.min (len (buf a) - pos a) (len p)) with (len (buf a) - pos a)
      by lia.
    replace (pos a + (len (buf a) - pos a)) with (len (buf a)) by lia.
    rewrite !skipn_all2 with (n := Z.to_nat (len (buf a)))
      by (unfold len in *; lia).
    reflexivity.
Qed.

Lemma copied_same_view (a b : RingBuffer) (p : list byte) :
  same_view a b -> ringMode a = false ->
  0 <= pos a -> pos a + len p <= len (buf a) ->
  len (buf a) <= maxSize a -> maxSize a <= GoInt.maxInt ->
  same_view
    (copied a (firstn (Z.to_nat (pos a)) (buf a) ++ p
                 ++ skipn (Z.to_nat (pos a + len p)) (buf a)) (len p))
    (copied b (firstn (Z.to_nat (pos b)) (buf b) ++ p
                 ++ skipn (Z.to_nat (pos b + len p)) (buf b)) (len p)).
Proof.
  intros (Hp & Hw & Hr & HM & Hl & Hc) Er H0 Hroom Hcap HMax.
  rewrite Er in Hc. pose proof (len_nonneg p) as Hlp.
  rewrite <- Hp in Hc |- *. rewrite <- Hc.
  set (ba := firstn (Z.to_nat (pos a)) (buf a) ++ p
               ++ skipn (Z.to_nat (pos a + len p)) (buf a)).
  set (bb := firstn (Z.to_nat (pos a)) (buf a) ++ p
               ++ skipn (Z.to_nat (pos a + len p)) (buf b)).
  assert (Hla : len ba = len (buf a)).
  { unfold ba. rewrite !len_app, len_firstn, len_skipn by lia. lia. }
  assert (Hlb : len bb = len (buf a)).
  { unfold bb. rewrite !len_app, len_firstn, len_skipn by lia. lia. }
  assert (Hadd : GoInt.add (pos a) (len p) = pos a + len p)
    by (apply add_id; int_range).
  assert (Hlf : length (firstn (Z.to_nat (pos a)) (buf a)) = Z.to_nat (pos a))
    by (rewrite length_firstn; unfold len in *; lia).
  destruct (copied_fields a ba (len p)) as (Ea & EMa & Ewa & Hma).
  destruct (copied_fields b bb (len p)) as (Eb & EMb & Ewb & Hmb).
  rewrite <- Hp, <- HM, <- Hr, <- Hw in *. rewrite Hadd in *.
  unfold same_view. rewrite Ea, Eb, EMa, EMb, Ewa, Ewb, Hla, Hlb.
  destruct Hma as [(Hfull & -> & ->) | (Hne & -> & ->)];
    destruct Hmb as [(Hfull' & -> & ->) | (Hne' & -> & ->)]; try lia.
  - repeat split. unfold ba, bb.
    rewrite skipn_all2 with (l := buf a) by (unfold len in *; lia).
    rewrite skipn_all2 with (l := buf b) by (unfold len in *; lia).
    reflexivity.
  - rewrite Er. repeat split. unfold ba, bb.
    rewrite !firstn_two by (rewrite Hlf; unfold len in *; lia). reflexivity.
Qed.

Lemma write_fits_exact (alloc_ok : Z -> bool) (r r1 : RingBuffer)
      (p : list byte) :
  (if len (buf r) <? GoInt.add (pos r) (len p)
   then Grow alloc_ok r (GoInt.add (pos r) (len p))
   else Ret (r, None)) = Ret (r1, None) ->
  pos r1 = pos r -> 0 <= pos r ->
  GoInt.add (pos r) (len p) = pos r + len p ->
  pos r + len p <= len (buf r1) ->
  write alloc_ok r p =
    Ret (copied r1 (firstn (Z.to_nat (pos r1)) (buf r1) ++ p
                      ++ skipn (Z.to_nat (pos r1 + len p)) (buf r1)) (len p),
         len p, None).
Proof.
  intros G Hp H0 Hadd Hfit. pose proof (len_nonneg p) as Hlp.
  unfold write. rewrite G. cbn [bind]. rewrite Hp, Hadd.
  destruct (Z.geb_spec (len (buf r1)) (pos r + len p)); [ | lia].
  rewrite <- Hp. rewrite copy_at_ok by lia. cbn [bind].
  replace (Z.min (len (buf r1) - pos r1) (len p)) with (len p) by lia.
  rewrite firstn_all2 with (l := p) by (unfold len; lia). reflexivity.
Qed.

(** Buffers that look the same answer a successful [Write] the same way
    and look the same afterwards. *)
Lemma Write_same_view (alloc_ok : Z -> bool) (a b a' : RingBuffer)
      (p : list byte) (n : Z) :
  wf a -> wf b -> same_view a b -> maxSize a + len p <= GoInt.maxInt ->
  Write alloc_ok a p = Ret (a', n, None) ->
  exists b', Write alloc_ok b p = Ret (b', n, None) /\ same_view a' b'.
Proof.
  intros Hwfa Hwfb Hv Hbound W. destruct (ringMode a) eqn:Er.
  { rewrite <- (same_view_ring a b Hv Er). exists a'.
    split; [exact W | apply same_view_refl]. }
  pose proof Hv as (Hp & Hw & Hr & HM & Hl & Hc). rewrite Er in Hc.
  pose proof Hwfa as (Hposa & Hcapa & HMa & _).
  pose proof (len_nonneg p) as Hlp.
  assert (Hsize : GoInt.add (pos a) (len p) = pos a + len p)
    by (apply add_id; int_range).
  unfold Write in *. rewrite <- Hr, Er. rewrite Er in W.
  apply write_ret in W as [(? & _) | (r1a & Hga & W)]; [discriminate | ].
  rewrite Hsize in *.
  assert (Gb : exists r1b,
             (if len (buf b) <? GoInt.add (pos b) (len p)
              then Grow alloc_ok b (GoInt.add (pos b) (len p))
              else Ret (b, None)) = Ret (r1b, None) /\
             grown alloc_ok b r1b (pos a + len p) /\
             len (buf r1b) = len (buf r1a)).
  { rewrite <- Hp, Hsize, <- Hl. destruct Hga as [[Hs ->] | [Hs G]].
    - exists b. destruct (Z.ltb_spec (len (buf a)) (pos a + len p)); [lia | ].
      split; [reflexivity | ]. split; [ | symmetry; exact Hl].
      left. split; [lia | reflexivity].
    - destruct (Z.ltb_spec (len (buf a)) (pos a + len p)); [ | lia].
      apply Grow_ret in G as [[? _] | (_ & m & Hm & H0 & Ha & ->)];
        [discriminate | ].
      rewrite (growSize_ext a b _ Hl HM) in Hm.
      destruct (Grow_run alloc_ok b _ m Hm H0 Ha) as (r1b & G' & Hl' & _).
      exists r1b. split; [exact G' | ]. split.
      + right. split; [lia | exact G'].
      + unfold set_buf. cbn [buf].
        rewrite copy_len, len_repeat by assumption. exact Hl'. }
  destruct Gb as (r1b & Gb & Hgb & Hl1).
  destruct (grown_wf _ _ _ _ Hwfa Hga)
    as ((Hpos1 & Hcap1 & HM1 & _) & Hpa & Hwa & Hra & HMa' & _ & za & Hza).
  destruct (grown_wf _ _ _ _ Hwfb Hgb)
    as (_ & Hpb & Hwb & Hrb & HMb' & _ & zb & Hzb).
  assert (Hv1 : same_view r1a r1b).
  { unfold same_view. rewrite Hpa, Hpb, Hwa, Hwb, Hra, Hrb, HMa', HMb', Er.
    repeat split; try assumption; try (symmetry; assumption);
      try congruence.
    rewrite Hza, Hzb.
    rewrite !firstn_front by (unfold len in *; lia).
    exact Hc. }
  destruct W as [(Hfit & _ & ba & C & ->) | (Hno & W)].
  - apply copy_at_ret in C as (_ & Hn & _ & Eb).
    assert (En : n = len p) by lia. clear Hn. subst n.
    rewrite firstn_all2 with (l := p) in Eb by (unfold len; lia). subst ba.
    rewrite (write_fits_exact alloc_ok b r1b p Gb Hpb); try lia.
    + eexists. split; [reflexivity | ].
      apply copied_same_view; try assumption; try lia. congruence.
    + rewrite <- Hp. exact Hsize.
  - rewrite (write_overflows alloc_ok b r1b p Gb Hpb)
      by (rewrite <- Hp, Hsize; lia).
    rewrite <- (writeRing_overflow_ext (set_ringMode r1a true)
                  (set_ringMode r1b true) p);
      cbn [set_ringMode buf pos written ringMode maxSize];
      try congruence; try lia.
    + exists a'. split; [exact W | apply same_view_refl].
    + destruct Hv1 as (_ & _ & Hr1 & _ & _ & Hc1).
      rewrite Hra, Er in Hc1. exact Hc1.
Qed.

Lemma writeAll_same_view (alloc_ok : Z -> bool) (ps : list (list byte))
      (a b a' : RingBuffer) (ns : list Z) :
  wf a -> wf b -> same_view a b ->
  Forall (fun p => maxSize a + len p <= GoInt.maxInt) ps ->
  writeAll alloc_ok a ps = Some (a', ns) ->
  exists b', writeAll alloc_ok b ps = Some (b', ns) /\ same_view a' b'.
Proof.
  revert a b ns. induction ps as [|p ps IH]; intros a b ns Hwfa Hwfb Hv Hb W.
  - injection W as <- <-. exists b. split; [reflexivity | exact Hv].
  - apply writeAll_cons in W as (a1 & n & ns' & W & Wr & ->).
    inversion Hb as [|? ? Hp Hps]; subst.
    destruct (Write_same_view alloc_ok a b a1 p n Hwfa Hwfb Hv Hp W)
      as (b1 & Wb & Hv1).
    destruct (Write_wf _ _ _ _ _ _ W Hwfa) as [Hwfa1 HMa1].
    destruct (Write_wf _ _ _ _ _ _ Wb Hwfb) as [Hwfb1 _].
    rewrite <- HMa1 in Hps.
    destruct (IH a1 b1 ns' Hwfa1 Hwfb1 Hv1 Hps Wr) as (b' & Wb' & Hv').
    exists b'. cbn [writeAll]. rewrite Wb, Wb'. split; [reflexivity | exact Hv'].
Qed.

(** X9: a buffer right after [Reset] answers every sequence of successful
    writes as a buffer newly made with the same allocated size and the same
    limit does, and the other way round: the same counts are returned, and
    [Cap], [Written] and [Bytes] agree afterwards. *)
Theorem Reset_like_new (alloc_ok : Z -> bool) (r f : RingBuffer)
        (ps : list (list byte)) :
  reachable alloc_ok r ->
  NewRingBuffer alloc_ok (Cap r) (maxSize r) = Ret f ->
  Forall (fun p => maxSize r + len p <= GoInt.maxInt) ps ->
  (forall a ns, writeAll alloc_ok (Reset r) ps = Some (a, ns) ->
     exists b, writeAll alloc_ok f ps = Some (b, ns) /\
       Cap b = Cap a /\ Written b = Written a /\ Bytes b = Bytes a) /\
  (forall b ns, writeAll alloc_ok f ps = Some (b, ns) ->
     exists a, writeAll alloc_ok (Reset r) ps = Some (a, ns) /\
       Cap a = Cap b /\ Written a = Written b /\ Bytes a = Bytes b).
Proof.
  intros Hr Hnew Hb. apply reachable_wf in Hr.
  pose proof Hr as (_ & Hcap & HM & _).
  assert (Hwff : wf f) by (apply (NewRingBuffer_wf _ _ _ _ Hnew HM)).
  pose proof (Reset_wf r Hr) as Hwfr.
  assert (Hv : same_view (Reset r) f).
  { apply NewRingBuffer_ret in Hnew as [H0 ->]. unfold same_view, Reset, Cap.
    cbn [set_pos set_ringMode set_written buf pos written ringMode maxSize].
    repeat split. rewrite len_repeat by assumption.
    unfold Cap. destruct (Z.gtb_spec (len (buf r)) (maxSize r)); lia. }
  assert (HMf : maxSize f = maxSize r).
  { apply NewRingBuffer_ret in Hnew as [_ ->]. reflexivity. }
  split.
  - intros a ns W.
    destruct (writeAll_same_view alloc_ok ps (Reset r) f a ns Hwfr Hwff Hv Hb W)
      as (b & Wb & Hv').
    pose proof Hv' as (_ & Hw & _ & _ & Hl & _).
    exists b. split; [exact Wb | ]. unfold Cap, Written.
    repeat split; try congruence. symmetry. apply same_view_Bytes, Hv'.
  - intros b ns W. rewrite <- HMf in Hb.
    destruct (writeAll_same_view alloc_ok ps f (Reset r) b ns Hwff Hwfr
                (same_view_sym _ _ Hv) Hb W)
      as (a & Wa & Hv').
    pose proof Hv' as (_ & Hw & _ & _ & Hl & _).
    exists a. split; [exact Wa | ]. unfold Cap, Written.
    repeat split; try congruence. symmetry. apply same_view_Bytes, Hv'.
Qed.

Lemma Reset_like_new_witness :
  exists b,
    writeAll always
      (Reset (mkRingBuffer (bytes_of "abcde" ++ [x00]) 5 5 false 7))
      [bytes_of "xy"; bytes_of "0123456"]
      = Some (mkRingBuffer (bytes_of "5601234") 2 9 true 7, [2; 7]) /\
    writeAll always (mkRingBuffer (repeat x00 6) 0 0 false 7)
      [bytes_of "xy"; bytes_of "0123456"] = Some (b, [2; 7]) /\
    Cap b = 7 /\ Written b = 9 /\
    Bytes b = Ret (bytes_of "0123456").
Proof.
  assert (W : writeAll always
                (Reset (mkRingBuffer (bytes_of "abcde" ++ [x00]) 5 5 false 7))
                [bytes_of "xy"; bytes_of "0123456"]
              = Some (mkRingBuffer (bytes_of "5601234") 2 9 true 7, [2; 7]))
    by (vm_compute; reflexivity).
  destruct (Reset_like_new always
              (mkRingBuffer (bytes_of "abcde" ++ [x00]) 5 5 false 7)
              (mkRingBuffer (repeat x00 6) 0 0 false 7)
              [bytes_of "xy"; bytes_of "0123456"]) as [H _].
  - apply (reach_step always (mkRingBuffer (repeat x00 3) 0 0 false 7) _
             (OpWrite (bytes_of "abcde"))); [ | vm_compute; reflexivity].
    apply (reach_new always 3 7); [int_range | reflexivity].
  - vm_compute. reflexivity.
  - repeat constructor; vm_compute; discriminate.
  - destruct (H _ _ W) as (b & Wb & Hc & Hw & HB).
    exists b. split; [exact W | ]. split; [exact Wb | ].
    split; [exact Hc | ]. split; [exact Hw | exact HB].
Defined.

(** ** After [Close] *)

Lemma len_zero_nil (s : list byte) : len s = 0 -> s = [].
Proof. unfold len. intros H. apply length_zero_iff_nil. lia. Qed.

Lemma Write_closed (alloc_ok : Z -> bool) (r : RingBuffer) (p : list byte) :
  alloc_ok 0 = true -> closed r -> len p <= 2 ^ 62 ->
  exists r', Write alloc_ok r p = Ret (r', len p, None) /\ closed r'.
Proof.
  intros Ha (Hb & Hp & HM) Hsmall. pose proof (len_nonneg p) as Hlp.
  assert (Hring : forall q, buf q = [] -> pos q = 0 -> maxSize q = 0 ->
            exists r', writeRing q p = Ret (r', len p, None) /\ closed r').
  { intros q Hqb Hqp HqM.
    destruct (writeRing_ok q p) as (b & c & W & Hlb & Hc).
    { rewrite Hqp, Hqb. cbn. lia. }
    eexists. split; [exact W | ]. rewrite Hqb in Hlb. change (len []) with 0 in Hlb.
    unfold closed. cbn [buf pos maxSize].
    split; [apply len_zero_nil, Hlb | ]. split; [lia | exact HqM]. }
  unfold Write. destruct (ringMode r) eqn:Er; [apply Hring; assumption | ].
  assert (Hadd : GoInt.add (pos r) (len p) = len p).
  { rewrite Hp. apply add_id. int_range. }
  destruct (Z.eq_dec (len p) 0) as [E0 | Hne].
  - (* nothing to write: the cursor is at the limit at once *)
    assert (G : (if len (buf r) <? GoInt.add (pos r) (len p)
                 then Grow alloc_ok r (GoInt.add (pos r) (len p))
                 else Ret (r, None)) = Ret (r, None)).
    { rewrite Hadd, Hb, E0. reflexivity. }
    destruct (write_fits alloc_ok r r p G eq_refl) as (b & Hlb & W);
      try (rewrite ?Hp, ?Hb; change (len []) with 0; lia).
    { rewrite Hadd, Hp. lia. }
    eexists. split; [exact W | ].
    destruct (copied_fields r b (len p)) as (Eb & EM & _ & _).
    unfold closed. rewrite Eb, EM. rewrite Hb in Hlb.
    split; [apply len_zero_nil, Hlb | ]. split; [ | exact HM].
    unfold copied. cbn [pos maxSize]. rewrite Hadd, HM, E0. reflexivity.
  - (* the growth step allocates nothing and the input is handed over *)
    assert (Hn : growSize r (len p) = Some 0).
    { unfold growSize. rewrite Hb, HM. change (len [] =? 0) with true.
      cbn [len length].
      destruct (growLoop_small 1 (len p)) as [v Hv]; [lia | lia | ].
      rewrite Hv. apply growLoop_start in Hv.
      destruct (Z.geb_spec v 0); [reflexivity | lia]. }
    destruct (Grow_run alloc_ok r (len p) 0 Hn (Z.le_refl 0) Ha)
      as (r1 & G & Hl1 & Hp1 & _ & _ & HM1).
    assert (G' : (if len (buf r) <? GoInt.add (pos r) (len p)
                  then Grow alloc_ok r (GoInt.add (pos r) (len p))
                  else Ret (r, None)) = Ret (r1, None)).
    { rewrite Hadd, Hb. change (len []) with 0.
      destruct (Z.ltb_spec 0 (len p)); [exact G | lia]. }
    rewrite (write_overflows alloc_ok r r1 p G' Hp1) by (rewrite Hadd; lia).
    apply Hring; cbn [set_ringMode buf pos maxSize].
    + apply len_zero_nil, Hl1.
    + congruence.
    + congruence.
Qed.

(** X10: after [Close] the buffer takes writes without panicking: with an
    allocator that can provide the empty slice, every [Write] returns the
    length of its input and no error, nothing is kept, [Cap] stays 0 and
    [Bytes] stays empty. *)
Theorem closed_buffer_keeps_nothing (alloc_ok : Z -> bool) (r : RingBuffer)
        (ps : list (list byte)) :
  alloc_ok 0 = true ->
  Forall (fun p => len p <= 2 ^ 62) ps ->
  exists r',
    writeAll alloc_ok (fst (Close r)) ps = Some (r', map len ps) /\
    Cap r' = 0 /\ Bytes r' = Ret [].
Proof.
  intros Ha Hb.
  assert (H : forall q, closed q ->
            exists r', writeAll alloc_ok q ps = Some (r', map len ps) /\
                       closed r').
  { induction Hb as [|p ps Hp Hps IH]; intros q Hq.
    - exists q. split; [reflexivity | exact Hq].
    - destruct (Write_closed alloc_ok q p Ha Hq Hp) as (q1 & W & Hq1).
      destruct (IH q1 Hq1) as (r' & Ws & Hr').
      exists r'. cbn [writeAll map]. rewrite W, Ws. auto. }
  destruct (H (fst (Close r))) as (r' & W & (Hbuf & Hpos & _)).
  { unfold closed. cbn. auto. }
  exists r'. split; [exact W | ]. unfold Cap, Bytes, from, upto.
  rewrite Hbuf, Hpos. destruct (ringMode r'); auto.
Qed.

Lemma closed_buffer_keeps_nothing_witness :
  exists r',
    writeAll always
      (fst (Close (mkRingBuffer (bytes_of "abcdefg") 2 9 true 7)))
      [bytes_of "xyz"; []; bytes_of "w"] = Some (r', [3; 0; 1]) /\
    Cap r' = 0 /\ Bytes r' = Ret [].
Proof.
  apply (closed_buffer_keeps_nothing always
           (mkRingBuffer (bytes_of "abcdefg") 2 9 true 7)
           [bytes_of "xyz"; []; bytes_of "w"]).
  - reflexivity.
  - repeat constructor; vm_compute; discriminate.
Defined.

(** ** What the buffer holds *)

(** X11: on a buffer reached from construction [Bytes] and [String] return
    (no panic): [String] is the text with exactly the bytes of [Bytes], and
    these are never more than the limit, as many as the cursor says in
    growing mode and as many as the limit in ring mode. *)
Theorem contents_within_limit (alloc_ok : Z -> bool) (r : RingBuffer) :
  reachable alloc_ok r ->
  exists l s,
    Bytes r = Ret l /\ String r = Ret s /\ list_byte_of_string s = l /\
    len l <= maxSize r /\
    len l = (if ringMode r then maxSize r else pos r).
Proof.
  intros Hr. apply reachable_wf in Hr as (Hpos & Hcap & _ & Hring).
  unfold String, Bytes. rewrite from_ok, upto_ok by assumption.
  destruct (ringMode r) eqn:Er; cbn [bind]; do 2 eexists;
    (split; [reflexivity | ]); (split; [reflexivity | ]);
    (split; [apply list_byte_of_string_of_list_byte | ]).
  - rewrite len_app, len_firstn, len_skipn by assumption.
    specialize (Hring eq_refl). lia.
  - rewrite len_firstn by assumption. lia.
Qed.

Lemma contents_within_limit_witness :
  exists l s,
    Bytes (mkRingBuffer (bytes_of "abcde" ++ [x00]) 5 5 false 7) = Ret l /\
    String (mkRingBuffer (bytes_of "abcde" ++ [x00]) 5 5 false 7) = Ret s /\
    list_byte_of_string s = l /\ len l <= 7 /\ len l = 5.
Proof.
  apply (contents_within_limit always
           (mkRingBuffer (bytes_of "abcde" ++ [x00]) 5 5 false 7)).
  apply (reach_step always (mkRingBuffer (repeat x00 3) 0 0 false 7) _
           (OpWrite (bytes_of "abcde"))); [ | vm_compute; reflexivity].
  apply (reach_new always 3 7); [int_range | reflexivity].
Defined.

(** ** Growing ahead of the writes *)

Lemma writes_room (ps : list (list byte)) (q : RingBuffer) :
  wf q -> ringMode q = true \/ pos q + total ps <= Cap q ->
  exists r',
    (forall alloc_ok, writeAll alloc_ok q ps = Some (r', map len ps)) /\
    Cap r' = Cap q.
Proof.
  revert q. induction ps as [|p ps IH]; intros q Hwf Hq.
  - exists q. split; [reflexivity | reflexivity].
  - change (total (p :: ps)) with (len p + total ps) in Hq.
    pose proof (total_nonneg ps) as Ht. pose proof (len_nonneg p) as Hlp.
    assert (Hstep : exists q1,
               (forall alloc_ok, Write alloc_ok q p = Ret (q1, len p, None)) /\
               Cap q1 = Cap q /\
               (ringMode q1 = true \/ pos q1 + total ps <= Cap q1)).
    { destruct (ringMode q) eqn:Er.
      - destruct Hwf as (Hpos & _).
        destruct (writeRing_ok q p Hpos) as (b & c & W & Hb & _).
        eexists. split; [ | split].
        + intros alloc_ok. unfold Write. rewrite Er. exact W.
        + unfold Cap. cbn [buf]. exact Hb.
        + left. cbn [ringMode]. exact Er.
      - destruct Hq as [? | Hq]; [discriminate | ].
        destruct (write_room q p Hwf Er) as (q1 & W & Hc & _ & _ & Hn);
          [lia | ].
        exists q1. split; [exact W | ]. split; [exact Hc | ].
        destruct Hn as [Ht1 | Hp1]; [left; exact Ht1 | right; lia]. }
    destruct Hstep as (q1 & W & Hc & Hq1).
    destruct (Write_wf always q q1 p _ _ (W always) Hwf) as [Hwf1 _].
    destruct (IH q1 Hwf1 Hq1) as (r' & Ws & Hc').
    exists r'. split; [ | congruence].
    intros alloc_ok. cbn [writeAll map]. rewrite W, Ws. reflexivity.
Qed.

(** X12: after a successful [Grow size] on a growing buffer, writes that
    together stay within [size] and within the limit all return the length
    of their input and no error whatever the allocator does, and the
    storage keeps the length [Grow] gave it. *)
Theorem presized_writes (alloc_ok : Z -> bool) (r r1 : RingBuffer) (size : Z)
        (ps : list (list byte)) :
  wf r -> ringMode r = false ->
  Grow alloc_ok r size = Ret (r1, None) ->
  pos r + total ps <= Z.min size (maxSize r) ->
  exists r',
    (forall alloc_ok', writeAll alloc_ok' r1 ps = Some (r', map len ps)) /\
    Cap r' = Cap r1.
Proof.
  intros Hwf Hr G Hroom.
  destruct (Grow_contents alloc_ok r r1 size Hwf G)
    as (_ & Hc & Hs & _ & Hp & _).
  destruct (Grow_wf alloc_ok r r1 size None G Hwf) as [Hwf1 _].
  apply writes_room; [exact Hwf1 | right]. rewrite Hp. lia.
Qed.

Lemma presized_writes_witness :
  exists r',
    (forall alloc_ok',
        writeAll alloc_ok'
          (mkRingBuffer (bytes_of "ab" ++ repeat x00 10) 2 2 false 20)
          [bytes_of "cde"; bytes_of "fghi"] = Some (r', [3; 4])) /\
    Cap r' = 12.
Proof.
  apply (presized_writes always
           (mkRingBuffer (bytes_of "ab" ++ [x00]) 2 2 false 20)
           (mkRingBuffer (bytes_of "ab" ++ repeat x00 10) 2 2 false 20) 10
           [bytes_of "cde"; bytes_of "fghi"]).
  - unfold wf. cbn. repeat split; try lia; discriminate.
  - reflexivity.
  - vm_compute. reflexivity.
  - vm_compute. discriminate.
Defined.

(** ** Storage is never given back *)

Lemma Write_cap_mono (alloc_ok : Z -> bool) (r r' : RingBuffer)
      (p : list byte) (n : Z) (e : option error) :
  wf r -> Write alloc_ok r p = Ret (r', n, e) -> Cap r <= Cap r'.
Proof.
  intros Hwf W. unfold Cap, Write in *. destruct (ringMode r).
  - apply writeRing_ret in W as (_ & _ & _ & _ & Hl & _). lia.
  - apply write_ret in W as [(_ & _ & -> & _) | (r1 & Hg & W)]; [lia | ].
    destruct (grown_wf _ _ _ _ Hwf Hg) as (_ & _ & _ & _ & _ & _ & z & Hz).
    assert (Hle : len (buf r) <= len (buf r1)).
    { rewrite Hz, len_app. pose proof (len_nonneg z). lia. }
    destruct W as [(_ & _ & b & C & ->) | (_ & W)].
    + apply copy_at_ret in C as (_ & _ & Hb & _).
      destruct (copied_fields r1 b n) as (-> & _). lia.
    + apply writeRing_ret in W as (_ & _ & _ & _ & Hl & _).
      cbn [set_ringMode buf] in Hl. lia.
Qed.

(** X13: on a buffer reached from construction no call of [Write], [Grow],
    [Bytes] or [Reset] makes the storage shorter. *)
Theorem storage_never_shrinks (alloc_ok : Z -> bool) (r r' : RingBuffer)
        (o : op) :
  reachable alloc_ok r -> step alloc_ok r o = Ret r' -> Cap r <= Cap r'.
Proof.
  intros Hr S. apply reachable_wf in Hr.
  destruct o as [p | size | | ]; cbn [step] in S.
  - destruct (Write alloc_ok r p) as [[[r1 n] e]| |] eqn:W; try discriminate.
    cbn in S. injection S as <-. eapply Write_cap_mono; eassumption.
  - destruct (Grow alloc_ok r size) as [[r1 [e|]]| |] eqn:G;
      try discriminate; cbn in S; injection S as <-.
    + apply Grow_ret in G as [[_ ->] | [? _]]; [lia | discriminate].
    + destruct (Grow_contents alloc_ok r r1 size Hr G) as (_ & Hc & _). lia.
  - destruct (Bytes r); cbn in S; try discriminate. injection S as <-. lia.
  - injection S as <-. unfold Cap, Reset. cbn. lia.
Qed.

Lemma storage_never_shrinks_witness :
  Cap (mkRingBuffer (bytes_of "abcde" ++ [x00]) 5 5 false 7)
  <= Cap (mkRingBuffer (bytes_of "abcde" ++ [x00]) 0 0 false 7).
Proof.
  apply (storage_never_shrinks always
           (mkRingBuffer (bytes_of "abcde" ++ [x00]) 5 5 false 7)
           (mkRingBuffer (bytes_of "abcde" ++ [x00]) 0 0 false 7) OpReset).
  - apply (reach_step always (mkRingBuffer (repeat x00 3) 0 0 false 7) _
             (OpWrite (bytes_of "abcde"))); [ | vm_compute; reflexivity].
    apply (reach_new always 3 7); [int_range | reflexivity].
  - reflexivity.
Defined.

(** ** Where errors come from *)

(** X14: [Write] returns an error only in growing mode and only when the
    allocation of its growth step was refused; it then reports zero bytes
    written and leaves the buffer as it was. *)
Theorem write_error_only_from_allocation (alloc_ok : Z -> bool)
        (r r' : RingBuffer) (p : list byte) (n : Z) (e : error) :
  Write alloc_ok r p = Ret (r', n, Some e) ->
  r' = r /\ n = 0 /\ ringMode r = false /\
  exists m, growSize r (GoInt.add (pos r) (len p)) = Some m /\
            (0 <=? m) && alloc_ok m = false.
Proof.
  intros W. unfold Write in W. destruct (ringMode r) eqn:Er.
  { apply writeRing_ret in W as (_ & ? & _). discriminate. }
  pose proof (W' := W).
  apply write_ret in W' as [(_ & Hn & Hr & Hlt) | (r1 & _ & W')].
  - split; [exact Hr | ]. split; [exact Hn | ]. split; [reflexivity | ].
    unfold write in W.
    destruct (Z.ltb_spec (len (buf r)) (GoInt.add (pos r) (len p))); [ | lia].
    unfold Grow in W.
    destruct (growSize r (GoInt.add (pos r) (len p))) as [m|];
      [ | discriminate].
    exists m. split; [reflexivity | ].
    destruct (makeSlice alloc_ok m) as [b [e'|]] eqn:M.
    + eapply makeSlice_err. exact M.
    + exfalso. cbn [bind] in W.
      match type of W with
      | (if ?c then _ else _) = _ => destruct c
      end.
      * destruct (copy_at _ _ p) as [[b' m']| |]; discriminate.
      * apply writeRing_ret in W as (_ & ? & _). discriminate.
  - destruct W' as [(_ & ? & _) | (_ & W')]; [discriminate | ].
    apply writeRing_ret in W' as (_ & ? & _). discriminate.
Qed.

Lemma write_error_only_from_allocation_witness :
  mkRingBuffer (repeat x00 3) 0 0 false 7
  = mkRingBuffer (repeat x00 3) 0 0 false 7 /\
  0 = 0 /\ false = false /\
  exists m,
    growSize (mkRingBuffer (repeat x00 3) 0 0 false 7)
      (GoInt.add 0 (len (bytes_of "abcde"))) = Some m /\
    (0 <=? m) && (m <? 5) = false.
Proof.
  apply (write_error_only_from_allocation (fun n => n <? 5)
           (mkRingBuffer (repeat x00 3) 0 0 false 7)
           (mkRingBuffer (repeat x00 3) 0 0 false 7)
           (bytes_of "abcde") 0 ErrCantMakeSlice).
  vm_compute. reflexivity.
Defined.
